(** * Seq2SeqLanguageModel: tokenizer, training loop and generation facade

    A shallow embedding of
    [examples/language_modelling/language_modelling_seq2seq.py]
    (class [Seq2SeqLanguageModel]) and the properties its specification
    states about it.

    Conventions of the embedding.
    - A Python [str] is a list of characters ([str]); a text handed to
      [text2tensor] is the sequence of symbols Python iterates over (the
      one-character strings of a [str], or the items of a token list).
    - A 2-D integer tensor is the list of its rows ([X.tolist()]).
    - A Python exception is a constructor of [exn]; a computation that can
      raise returns a [result].
    - Everything owned by the numerical backend (parameters, optimizer
      moments, random generator, train/eval flag) is one abstract state;
      the model's [forward], the decoding strategies, the optimizer and
      the data loader are operations on it, gathered in interfaces. *)

From Stdlib Require Import ZArith QArith Ascii String List Lia.
From stdpp Require Import base decidable option list strings gmap.
From Equations Require Import Equations.

(** ** Python exceptions and results *)

Inductive exn :=
| KeyError
| IndexError
| ValueError
| AssertionError
| TypeError
| ZeroDivisionError
| RuntimeError
| BackendError (code : nat).

(** [LookupError] is the base class of [KeyError] and [IndexError]. *)
Definition is_LookupError (e : exn) : bool :=
  match e with
  | KeyError | IndexError => true
  | _ => false
  end.

(** The specification's [InvalidArgument] is what the source raises as
    [ValueError]. *)
Definition is_InvalidArgument (e : exn) : bool :=
  match e with
  | ValueError => true
  | _ => false
  end.

Inductive result (A : Type) :=
| Ok (a : A)
| Raise (e : exn).
Arguments Ok {A} a.
Arguments Raise {A} e.

Definition rbind {A B} (r : result A) (k : A → result B) : result B :=
  match r with
  | Ok a => k a
  | Raise e => Raise e
  end.

(** A list comprehension whose element expression can raise: elements
    are evaluated left to right and the first exception escapes. *)
Fixpoint rmap {A B} (f : A → result B) (l : list A) : result (list B) :=
  match l with
  | [] => Ok []
  | a :: l' => rbind (f a) (λ b, rbind (rmap f l') (λ bs, Ok (b :: bs)))
  end.

(** ** Text *)

Definition str := list ascii.

Definition lit (s : string) : str := list_ascii_of_string s.

Definition newline : ascii := "010"%char.

Definition is_newline (c : ascii) : bool := bool_decide (c = newline).

(** [separator.join(items)] *)
Fixpoint join (separator : str) (items : list str) : str :=
  match items with
  | [] => []
  | [s] => s
  | s :: rest => s ++ separator ++ join separator rest
  end.

(** *** [re.sub(end + ".*", end, s)]

    The end symbol is spliced into the pattern as it is, so the [re]
    module reads its characters as a regular expression: an ordinary
    character stands for itself, [.] for any character except a line
    feed, [^] for the start of the text and [$] for its end (or the place
    before a line feed that ends it).  The embedding covers the end
    symbols written with these ([regex_supported]).  The other special
    characters build repetitions, classes, groups, alternatives and
    escapes, or make [re.sub] raise [re.error]; an end symbol that holds
    one of them is outside the embedding.  Without a backslash the
    replacement is the end symbol as it is. *)

(** The characters that are special in a pattern. *)
Definition regex_special : str := lit ".^$*+?{}[]\|()".

(** The end symbols that are literal text for the [re] module (such as
    the default ["<END>"]). *)
Definition regex_literal (end_ : str) : bool :=
  forallb (λ c, negb (bool_decide (c ∈ regex_special))) end_.

(** The end symbols the embedding covers: literal text, [.], [^], [$]. *)
Definition regex_supported (end_ : str) : bool :=
  forallb (λ c, negb (bool_decide (c ∈ lit "*+?{}[]\|()"))) end_.

(** What one character of such an end symbol stands for in the pattern:
    itself, any character except a line feed ([.]), the start of the
    text ([^]), or its end ([$]). *)
Inductive atom :=
| Lit (c : ascii)
| AnyChar
| Bol
| Eol.

Definition parse_atom (c : ascii) : atom :=
  if bool_decide (c = "."%char) then AnyChar
  else if bool_decide (c = "^"%char) then Bol
  else if bool_decide (c = "$"%char) then Eol
  else Lit c.

Definition parse_end (end_ : str) : list atom := parse_atom <$> end_.

(** A match of the atoms at the head of [s]: what it leaves unconsumed.
    [start] tells whether [s] is the whole text. *)
Fixpoint match_atoms (atoms : list atom) (start : bool) (s : str) : option str :=
  match atoms with
  | [] => Some s
  | Lit c :: atoms' =>
      match s with
      | c' :: s' => if bool_decide (c' = c) then match_atoms atoms' false s' else None
      | [] => None
      end
  | AnyChar :: atoms' =>
      match s with
      | c' :: s' => if is_newline c' then None else match_atoms atoms' false s'
      | [] => None
      end
  | Bol :: atoms' => if start then match_atoms atoms' start s else None
  | Eol :: atoms' =>
      if bool_decide (s = [] ∨ s = [newline]) then match_atoms atoms' start s
      else None
  end.

(** What [.*] leaves unconsumed. *)
Fixpoint skip_dots (s : str) : str :=
  match s with
  | [] => []
  | c :: s' => if is_newline c then s else skip_dots s'
  end.

(** A text stands at a line end when nothing or a line feed comes next:
    there [.*] matches the empty text only. *)
Definition at_line_end (s : str) : Prop :=
  s = [] ∨ ∃ s', s = newline :: s'.

(** [re.sub] scans from the left.  Where the pattern matches, the match
    is replaced by the end symbol and the scan resumes behind it; where
    it does not, the character is copied.  An empty match is replaced and
    the character behind it copied; at the end of the text the pattern
    is tried once more. *)
Equations re_sub (end_ : str) (start : bool) (s : str) : str by wf (length s) lt :=
re_sub end_ start [] with match_atoms (parse_end end_) start [] := {
  | Some _ := end_;
  | None := [] };
re_sub end_ start (c :: s') with match_atoms (parse_end end_) start (c :: s') := {
  | None := c :: re_sub end_ false s';
  | Some m with decide (length (skip_dots m) < length (c :: s')) := {
      | left _ := end_ ++ re_sub end_ false (skip_dots m);
      | right _ := end_ ++ c :: re_sub end_ false s' } }.

(** What a match of [end + ".*"] at the head of [s] leaves unconsumed,
    for an end symbol that is literal text. *)
Definition match_rest (end_ s : str) : str :=
  skip_dots (drop (length end_) s).

(** The substitution for an end symbol that is literal text
    ([re_sub_literal]): the pattern matches where the end symbol stands,
    followed by every character up to, and not including, the next line
    feed. *)
Equations re_sub_end (end_ s : str) : str by wf (length s) lt :=
re_sub_end end_ [] := [];
re_sub_end end_ (c :: s') with bool_decide (end_ `prefix_of` c :: s') := {
  | false := c :: re_sub_end end_ s';
  | true with decide (length (match_rest end_ (c :: s')) < length (c :: s')) := {
      | left _ := end_ ++ re_sub_end end_ (match_rest end_ (c :: s'));
      | right _ := end_ ++ c :: re_sub_end end_ s' } }.

(** [s.find(end)]: the index of the first occurrence, when there is one. *)
Fixpoint find (end_ s : str) : option nat :=
  if bool_decide (end_ `prefix_of` s) then Some 0
  else match s with
       | [] => None
       | _ :: s' => S <$> find end_ s'
       end.

(** The text cut behind the first occurrence of the end symbol (the end
    symbol is kept, everything after it is dropped); the text itself
    when the end symbol does not occur. *)
Definition truncate_at_end (end_ s : str) : str :=
  match find end_ s with
  | Some i => take (i + length end_) s
  | None => s
  end.

(** [s.split("\n")]: the lines of a text, without their line feeds. *)
Fixpoint split_lines (s : str) : list str :=
  match s with
  | [] => [[]]
  | c :: s' =>
      if is_newline c then [] :: split_lines s'
      else match split_lines s' with
           | line :: lines => (c :: line) :: lines
           | [] => [[c]]
           end
  end.

(** ** Tensors of indices *)

(** A 2-D integer tensor, by rows. *)
Definition Tensor2 := list (list Z).

(** A 3-D integer tensor (batch, hypothesis, time). *)
Definition Tensor3 := list (list (list Z)).

(** [t[:, 1:]] *)
Definition drop_first_column {A} (t : list (list A)) : list (list A) :=
  fmap (drop 1) t.

(** [t[:, :-1]] *)
Definition drop_last_column {A} (t : list (list A)) : list (list A) :=
  fmap (λ row, take (length row - 1) row) t.

(** [torch.cat((a, b), axis = 1)]: rows are concatenated pairwise; the
    two tensors must have as many rows. *)
Definition cat_axis1 (a b : Tensor2) : result Tensor2 :=
  if bool_decide (length a = length b) then Ok (zip_with app a b)
  else Raise RuntimeError.

(** [nn.utils.rnn.pad_sequence(rows, batch_first = True)]: every row is
    filled on the right with the padding value 0 up to the length of the
    longest one.  The routine refuses an empty list of sequences. *)
Definition pad_sequence (rows : list (list Z)) : result Tensor2 :=
  match rows with
  | [] => Raise RuntimeError
  | _ =>
      let width := max_list (fmap length rows) in
      Ok (fmap (λ row, row ++ replicate (width - length row) 0%Z) rows)
  end.

(** ** The tokenizer and detokenizer of [Seq2SeqLanguageModel] *)

(** The two vocabularies the constructors store on the model:
    [in_vocabulary] maps a symbol to its index, [out_vocabulary] an
    index to its symbol. *)
Record Vocabularies := {
  in_vocabulary : gmap str Z;
  out_vocabulary : gmap Z str
}.

(** [d[k]] on a dict *)
Definition getitem `{Countable K} {V} (d : gmap K V) (k : K) : result V :=
  match d !! k with
  | Some v => Ok v
  | None => Raise KeyError
  end.

(** One element of the comprehension of [tensor2text]:
    [re.sub(end + ".*", end, separator.join([vocabulary[i] for i in l]))] *)
Definition row2text (vocabulary : gmap Z str) (separator end_ : str)
    (l : list Z) : result str :=
  rbind (rmap (getitem vocabulary) l)
        (λ symbols, Ok (re_sub end_ true (join separator symbols))).

Definition default_separator : str := [].

Definition default_end : str := lit "<END>".

(** [tensor2text(self, X, separator = "", vocabulary = None, end = "<END>")];
    a call that leaves [separator] or [end] out passes [default_separator]
    or [default_end] here. *)
Definition tensor2text (self : Vocabularies) (X : Tensor2) (separator : str)
    (vocabulary : option (gmap Z str)) (end_ : str) : result (list str) :=
  let vocabulary := default (out_vocabulary self) vocabulary in
  rmap (row2text vocabulary separator end_) X.

(** [[self.in_vocabulary[c] for c in l]] *)
Definition encode (self : Vocabularies) (l : list str) : result (list Z) :=
  rmap (getitem (in_vocabulary self)) l.

(** [text2tensor(self, strings)] *)
Definition text2tensor (self : Vocabularies) (strings : list (list str))
    : result Tensor2 :=
  rbind (rmap (encode self) strings) pad_sequence.

(** The symbols Python iterates over in a [str]: its one-character
    strings. *)
Definition chars (s : str) : list str := fmap (λ c, [c]) s.

(** Encoding one text and decoding the result with the defaults of
    [tensor2text]. *)
Definition round_trip (self : Vocabularies) (S : list str) : result (list str) :=
  rbind (text2tensor self [S])
        (λ X, tensor2text self X default_separator None default_end).

(** ** Computations on a state that can raise *)

(** The state a computation leaves behind is kept when it raises: what
    was done before the exception stays done. *)
Definition M (S A : Type) : Type := S → S * result A.

Definition ret {S A} (a : A) : M S A := λ s, (s, Ok a).

Definition raise {S A} (e : exn) : M S A := λ s, (s, Raise e).

Definition bind {S A B} (m : M S A) (k : A → M S B) : M S B :=
  λ s, match m s with
       | (s', Ok a) => k a s'
       | (s', Raise e) => (s', Raise e)
       end.

Definition of_result {S A} (r : result A) : M S A := λ s, (s, r).

Notation "'let*' x := m 'in' k" := (bind m (λ x, k))
  (at level 10, x pattern, m at level 100, k at level 200).
Notation "m ;;; k" := (bind m (λ _, k))
  (at level 100, k at level 200, right associativity).

(** [assert c] *)
Definition assert {S} (c : bool) : M S unit :=
  if c then ret tt else raise AssertionError.

(** A comprehension or an accumulating loop whose body acts on the state. *)
Fixpoint mapM_ {S A B} (body : A → M S B) (l : list A) : M S (list B) :=
  match l with
  | [] => ret []
  | a :: l' =>
      let* b := body a in
      let* bs := mapM_ body l' in
      ret (b :: bs)
  end.

(** [for a in l: body] *)
Fixpoint for_each {S A} (l : list A) (body : A → M S unit) : M S unit :=
  match l with
  | [] => ret tt
  | a :: l' => body a ;;; for_each l' body
  end.

(** [range(a, b)] *)
Definition py_range (a b : Z) : list Z :=
  fmap (λ i, (a + Z.of_nat i)%Z) (seq 0 (Z.to_nat (b - a))).

(** ** Floating-point tensors *)

(** The floating-point numbers of the backend are an abstract type with
    the operations the source applies to them. *)
Class Numeric (num : Type) := {
  (** the cross-entropy of one position: minus the log-softmax of the
      logits at the class *)
  nll : list num → Z → num;
  (** the mean of the criterion over the positions it counts *)
  mean_reduction : list num → num;
  (** [sum(losses)] *)
  fsum : list num → num;
  (** [a / n] for a positive [n] *)
  fdiv : num → nat → num;
  (** [v.argmax(-1)] on one vector of logits *)
  argmax : list num → Z;
  (** [(100 * v).round() / 100] on one number *)
  round_100 : num → num
}.

(** [m.T] on a matrix given by rows.  (A matrix without rows has no
    columns here.) *)
Fixpoint transpose {A} (m : list (list A)) : list (list A) :=
  match m with
  | [] => []
  | row :: m' =>
      match m' with
      | [] => fmap (λ a, [a]) row
      | _ => zip_with cons row (transpose m')
      end
  end.

(** [t.transpose(1, 2)] on a 3-D tensor *)
Definition transpose12 {A} (t : list (list (list A))) : list (list (list A)) :=
  fmap transpose t.

(** [t[:, :, :-1]] on a 3-D tensor *)
Definition drop_last_time {A} (t : list (list (list A))) : list (list (list A)) :=
  fmap drop_last_column t.

(** [m[:, t]]: the entries at position [t] of the rows of [m] *)
Definition column {A} (m : list (list A)) (t : nat) : list A :=
  omap (λ row, row !! t) m.

Section Criterion.
Context {num : Type} `{!Numeric num}.

(** The positions one example contributes to the criterion: [input_n] is
    laid out (class, position), [target_n] holds a class per position;
    a position whose class is [ignore_index] is left out. *)
Definition example_terms (ignore_index : Z) (input_n : list (list num))
    (target_n : list Z) : list num :=
  mjoin (imap (λ t k, if bool_decide (k = ignore_index) then []
                      else [nll (column input_n t) k]) target_n).

(** The shapes [(N, C, d)] and [(N, d)] the criterion accepts. *)
Definition criterion_shapes (input : list (list (list num))) (target : Tensor2) : Prop :=
  Forall2 (λ input_n target_n, Forall (λ row, length row = length target_n) input_n)
          input target.

#[global] Instance criterion_shapes_dec input target :
  Decision (criterion_shapes input target).
Proof. unfold criterion_shapes. apply _. Defined.

(** The classes the criterion accepts: a target other than
    [ignore_index] is the index of one of the [C] classes. *)
Definition criterion_targets (ignore_index : Z) (input : list (list (list num)))
    (target : Tensor2) : Prop :=
  Forall2 (λ input_n target_n,
             Forall (λ k, k = ignore_index ∨ (0 ≤ k < Z.of_nat (length input_n))%Z)
                    target_n)
          input target.

#[global] Instance criterion_targets_dec ignore_index input target :
  Decision (criterion_targets ignore_index input target).
Proof. unfold criterion_targets. apply _. Defined.

(** [nn.CrossEntropyLoss(ignore_index = ignore_index)(input, target)]
    with its mean reduction.  The criterion refuses two batch sizes that
    differ ([ValueError]), positions that differ ([RuntimeError]) and a
    target that is neither [ignore_index] nor a class ([IndexError],
    "Target k is out of bounds"). *)
Definition CrossEntropyLoss (ignore_index : Z) (input : list (list (list num)))
    (target : Tensor2) : result num :=
  if decide (length input = length target) then
    if decide (criterion_shapes input target) then
      if decide (criterion_targets ignore_index input target)
      then Ok (mean_reduction (mjoin (zip_with (example_terms ignore_index) input target)))
      else Raise IndexError
    else Raise RuntimeError
  else Raise ValueError.

(** The loss of one mini-batch of [fit]:
    [criterion(predictions[:, :, :-1], y[:, 1:])] where [predictions] is
    [forward(x, y).transpose(1, 2)] and [criterion] ignores index 0. *)
Definition fit_loss (forward_x_y : list (list (list num))) (y : Tensor2) : result num :=
  let predictions := transpose12 forward_x_y in
  CrossEntropyLoss 0 (drop_last_time predictions) (drop_first_column y).

(** The specification's reading of that loss, for one example: the
    prediction at position [t] is compared with the true symbol at
    position [t + 1], unless that symbol is the padding index 0. *)
Definition shifted_masked_terms_of (prediction_n : list (list num)) (y_n : list Z)
    : list num :=
  mjoin (fmap (λ t, match prediction_n !! t, y_n !! (t + 1) with
                   | Some logits, Some k =>
                       if bool_decide (k = 0%Z) then [] else [nll logits k]
                   | _, _ => []
                   end)
             (seq 0 (length y_n))).

Definition shifted_masked_terms (forward_x_y : list (list (list num))) (y : Tensor2)
    : list num :=
  mjoin (zip_with shifted_masked_terms_of forward_x_y y).

(** The output of [forward(x, y)] has the shape (batch, time, vocabulary)
    where (batch, time) is the shape of [y]. *)
Definition forward_shape (forward_x_y : list (list (list num))) (y : Tensor2) : Prop :=
  Forall2 (λ prediction_n y_n,
             length prediction_n = length y_n ∧
             ∃ C, Forall (λ logits, length logits = C) prediction_n)
          forward_x_y y.

(** Every true symbol the loss looks at is a class of the prediction it
    is compared with: the true symbol at position [t + 1] is the padding
    index 0 or an index into the logits at position [t]. *)
Definition targets_in_range (forward_x_y : list (list (list num))) (y : Tensor2) : Prop :=
  Forall2 (λ prediction_n y_n,
             Forall (λ lk : list num * Z,
                       lk.2 = 0%Z ∨ (0 ≤ lk.2 < Z.of_nat (length lk.1))%Z)
                    (zip prediction_n (drop 1 y_n)))
          forward_x_y y.

#[global] Instance targets_in_range_dec forward_x_y y :
  Decision (targets_in_range forward_x_y y).
Proof. unfold targets_in_range. apply _. Defined.

(** [sum(losses) / len(losses)] *)
Definition py_mean (losses : list num) : result num :=
  match losses with
  | [] => Raise ZeroDivisionError
  | _ => Ok (fdiv (fsum losses) (length losses))
  end.

End Criterion.

(** ** The interfaces of the model and of the training library *)

(** What [Seq2SeqLanguageModel] inherits from its base class [Seq2Seq] and
    from the module class of the backend, as operations on the backend
    state [B]; [P] is what [state_dict] returns.  [greedy_search] and
    [beam_search] return a pair (sequences, scores), [sample] returns
    sequences, as [fit] uses them.  A [temperature] of [None] is an
    argument left to the default of [sample]. *)
Class Seq2Seq (num B P : Type) := {
  forward : Tensor2 → Tensor2 → M B (list (list (list num)));
  greedy_search : Tensor2 → Z → M B (Tensor2 * list num);
  sample : Tensor2 → Z → option Q → M B Tensor2;
  beam_search : Tensor2 → Z → Z → Z → M B (Tensor3 * list (list num));
  eval : B → B;
  train : B → B;
  state_dict : B → P
}.

(** What [fit] takes from the training library: the optimizer, the
    shuffling loader over the paired dataset ([D] is the loader object)
    and the gradient step. *)
Class Torch (B D : Type) := {
  (** [torch.optim.Adam(self.parameters(), lr)] *)
  Adam : Q → M B unit;
  (** the loader object over a paired dataset that holds at least one
      example, for a positive batch size *)
  loader : Tensor2 → Tensor2 → Z → result D;
  (** the mini-batches one pass over [iter(data_loader)] yields *)
  iter : D → M B (list (Tensor2 * Tensor2));
  (** [optimizer.zero_grad()] *)
  zero_grad : M B unit;
  (** [loss.backward()], for the loss of the mini-batch [(x, y)] *)
  backward : Tensor2 → Tensor2 → M B unit;
  (** [optimizer.step()] *)
  step : M B unit
}.

(** ** The training loop *)

(** What [print] and [pprint] write. *)
Inductive line (num : Type) :=
| Text (s : string)
| EpochLoss (e : Z) (loss : num)
| Texts (ts : list str)
| TextTable (ts : list (list str))
| Scores (v : list num)
| ScoreTable (v : list (list num)).
Arguments Text {num} s.
Arguments EpochLoss {num} e loss.
Arguments Texts {num} ts.
Arguments TextTable {num} ts.
Arguments Scores {num} v.
Arguments ScoreTable {num} v.

(** The state [fit] acts on: the backend, the standard output and the
    durable storage (path to saved parameters). *)
Record world (num B P : Type) := {
  backend : B;
  stdout : list (line num);
  disk : gmap str P
}.
Arguments backend {num B P} w.
Arguments stdout {num B P} w.
Arguments disk {num B P} w.

Section Fit.
Context {num B P D : Type} `{!Numeric num, !Seq2Seq num B P, !Torch B D}.

Abbreviation World := (world num B P).

(** An operation of the backend, run inside [fit]. *)
Definition on_backend {A} (m : M B A) : M World A :=
  λ w, match m (backend w) with
       | (b, r) => ({| backend := b; stdout := stdout w; disk := disk w |}, r)
       end.

(** [self.eval()], [self.train()] *)
Definition set_mode (f : B → B) : M World unit :=
  on_backend (λ b, (f b, Ok tt)).

(** [print(...)], [pprint(...)] *)
Definition print (l : line num) : M World unit :=
  λ w, ({| backend := backend w; stdout := stdout w ++ [l]; disk := disk w |}, Ok tt).

(** [torch.save(self.state_dict(), save_path)]; the write itself is taken
    to succeed. *)
Definition torch_save (save_path : str) : M World unit :=
  λ w, ({| backend := backend w; stdout := stdout w;
           disk := <[save_path := state_dict (backend w)]> (disk w) |}, Ok tt).

(** [tud.DataLoader(tud.TensorDataset(X, Y), batch_size, shuffle = True)].
    The dataset asserts that its two tensors hold as many examples; the
    shuffling sampler of the loader refuses a dataset without examples
    and its batch sampler a batch size that is not positive, both with
    [ValueError]. *)
Definition DataLoader (X Y : Tensor2) (batch_size : Z) : result D :=
  if bool_decide (length X = length Y) then
    if bool_decide (length X = 0) then Raise ValueError
    else if bool_decide (batch_size ≤ 0)%Z then Raise ValueError
    else loader X Y batch_size
  else Raise AssertionError.

(** The body of the loop over the mini-batches; its value is what is
    appended to [losses]. *)
Definition train_batch (xy : Tensor2 * Tensor2) : M World num :=
  let '(x, y) := xy in
  let* forward_x_y := on_backend (forward x y) in
  let* loss := of_result (fit_loss forward_x_y y) in
  on_backend zero_grad ;;;
  on_backend (backward x y) ;;;
  on_backend step ;;;
  ret loss.

(** The block under [if verbose > 2]. *)
Definition diagnostics (self : Vocabularies) (X Y : Tensor2) : M World unit :=
  let show t := of_result (tensor2text self t default_separator None default_end) in
  set_mode eval ;;;
  print (Text "Y") ;;;
  (let* ts := show (drop_first_column (take 5 Y)) in print (Texts ts)) ;;;
  print (Text "forward") ;;;
  (let* logits := on_backend (forward (take 5 X) (take 5 Y)) in
   let* ts := show (drop_last_column (fmap (λ rows : list (list num), fmap argmax rows) logits)) in
   print (Texts ts)) ;;;
  print (Text "greedy_search") ;;;
  let* greedy := on_backend (greedy_search (take 5 X) 10) in
  (let* ts := show (drop_first_column (fst greedy)) in print (Texts ts)) ;;;
  print (Text "sample") ;;;
  (let* sampled := on_backend (sample (take 5 X) 10 None) in
   let* ts := show (drop_first_column sampled) in
   print (Texts ts)) ;;;
  print (Text "beam_search") ;;;
  let* beam := on_backend (beam_search (take 5 X) 10 5 5) in
  (let* tss := mapM_ show (fmap drop_first_column (fst beam)) in
   print (TextTable (transpose tss))) ;;;
  print (Scores (fmap round_100 (snd greedy))) ;;;
  print (ScoreTable (fmap (λ row : list num, fmap round_100 row) (transpose (snd beam)))) ;;;
  print (Text "--------------------------------------------------") ;;;
  set_mode train.

(** The body of the loop over the epochs. *)
Definition epoch (self : Vocabularies) (X Y : Tensor2) (verbose : Z)
    (data_loader : D) (e : Z) : M World unit :=
  let* batches := on_backend (iter data_loader) in
  let* losses := mapM_ train_batch batches in
  let* mean := of_result (py_mean losses) in
  print (EpochLoss e mean) ;;;
  if bool_decide (verbose > 2)%Z then diagnostics self X Y else ret tt.

(** [fit(self, X, Y, epochs = 10, batch_size = 100, lr = 0.0001,
         verbose = 1, save_path = None)] *)
Definition fit (self : Vocabularies) (X Y : Tensor2) (epochs batch_size : Z)
    (lr : Q) (verbose : Z) (save_path : option str) : M World unit :=
  on_backend (Adam lr) ;;;
  let* data_loader := of_result (DataLoader X Y batch_size) in
  for_each (py_range 1 (epochs + 1)) (epoch self X Y verbose data_loader) ;;;
  match save_path with
  | Some path => torch_save path
  | None => ret tt
  end.

(** Everything [fit] does before it looks at [save_path]. *)
Definition training (self : Vocabularies) (X Y : Tensor2) (epochs batch_size : Z)
    (lr : Q) (verbose : Z) : M World unit :=
  on_backend (Adam lr) ;;;
  let* data_loader := of_result (DataLoader X Y batch_size) in
  for_each (py_range 1 (epochs + 1)) (epoch self X Y verbose data_loader).

(** The losses one epoch collects: the loop over the mini-batches of
    one pass over the loader. *)
Definition epoch_losses (data_loader : D) : M World (list num) :=
  let* batches := on_backend (iter data_loader) in
  mapM_ train_batch batches.

(** [epochs_reported data_loader es w lines w']: from the state [w], one
    epoch after the other of [es] collects the losses of its
    mini-batches, at least one, and prints its line, the sum of these
    losses divided by their number; [lines] is what has been printed
    when the state [w'] is reached. *)
Inductive epochs_reported (data_loader : D) :
    list Z → World → list (line num) → World → Prop :=
| reported_nil w : epochs_reported data_loader [] w [] w
| reported_cons e es w w1 losses lines w' :
    epoch_losses data_loader w = (w1, Ok losses) →
    losses ≠ [] →
    epochs_reported data_loader es
      (print (EpochLoss e (fdiv (fsum losses) (length losses))) w1).1 lines w' →
    epochs_reported data_loader (e :: es) w
      (EpochLoss e (fdiv (fsum losses) (length losses)) :: lines) w'.

(** A computation that leaves the durable storage as it found it,
    whether it returns or raises. *)
Definition keeps_disk {A} (m : M World A) : Prop :=
  ∀ w, disk (m w).1 = disk w.

End Fit.

(** ** The generation facade *)

(** What the variable [Y] of [generate] can hold: a tensor of sequences,
    or the tuple (sequences, scores) a search returns. *)
Inductive pyobj (num : Type) :=
| PyTensor (t : Tensor2)
| PyTuple (sequences : Tensor2) (scores : list num).
Arguments PyTensor {num} t.
Arguments PyTuple {num} sequences scores.

(** [Y[:, 1:]]: a tensor is sliced; a tuple takes an integer or a slice
    as its index, not a pair of slices. *)
Definition getitem_all_from1 {num} (Y : pyobj num) : result Tensor2 :=
  match Y with
  | PyTensor t => Ok (drop_first_column t)
  | PyTuple _ _ => Raise TypeError
  end.

(** [Y[:, 0, :]] on a 3-D tensor: the first hypothesis of every batch
    element. *)
Definition select_first (Y : Tensor3) : result Tensor2 :=
  rmap (λ hypotheses, match hypotheses !! 0 with
                      | Some h => Ok h
                      | None => Raise IndexError
                      end) Y.

(** What [generate] returns once the decoding strategy has produced the
    tensor of sequences [Y]: the detokenization of the tokenized input
    [X] followed by [Y] without its first column. *)
Definition continuation_text (self : Vocabularies) (X Y : Tensor2) : result (list str) :=
  rbind (cat_axis1 X (drop_first_column Y))
        (λ XY, tensor2text self XY default_separator None default_end).

Section Generate.
Context {num B P : Type} `{!Seq2Seq num B P}.

(** [generate(self, input_text, max_predictions = 10,
              method = "greedy_search", temperature = 1, candidates = 5,
              beam_width = 5)].
    Moving [X] to the device of the parameters leaves its value as it
    is. *)
Definition generate (self : Vocabularies) (input_text : list (list str))
    (max_predictions : Z) (method : string) (temperature : option Q)
    (candidates beam_width : option Z) : M B (list str) :=
  let* X := of_result (text2tensor self input_text) in
  let* Y :=
    if bool_decide (method = "greedy_search"%string) then
      let* Y := greedy_search X max_predictions in
      ret (PyTuple (fst Y) (snd Y))
    else if bool_decide (method = "sample"%string) then
      assert (bool_decide (is_Some temperature)) ;;;
      let* Y := sample X max_predictions temperature in
      ret (PyTensor Y)
    else if bool_decide (method = "beam_search"%string) then
      assert (bool_decide (is_Some candidates)) ;;;
      assert (bool_decide (is_Some beam_width)) ;;;
      let* Y := beam_search X max_predictions (default 0%Z candidates)
                            (default 0%Z beam_width) in
      let* Y := of_result (select_first (fst Y)) in
      ret (PyTensor Y)
    else raise ValueError in
  let* Y1 := of_result (getitem_all_from1 Y) in
  let* XY := of_result (cat_axis1 X Y1) in
  of_result (tensor2text self XY default_separator None default_end).

(** Modelled from the spec: the argument check of [sample], a method of
    the base class [Seq2Seq] that is not part of this file.  "The
    temperature must be a positive real number - fails with
    InvalidArgument otherwise", and the failure comes before any model
    invocation; a temperature left to its default is not checked.
    [draw] is the sampling loop behind the check. *)
Definition checked_sample (draw : Tensor2 → Z → option Q → M B Tensor2)
    (X : Tensor2) (max_predictions : Z) (temperature : option Q) : M B Tensor2 :=
  match temperature with
  | Some t => if Qle_bool t 0 then raise ValueError
              else draw X max_predictions temperature
  | None => draw X max_predictions temperature
  end.

End Generate.

(** A model whose [sample] checks its temperature as the specification
    says. *)
Definition with_checked_sample {num B P} (model : Seq2Seq num B P) : Seq2Seq num B P :=
  {| forward := forward;
     greedy_search := greedy_search;
     sample := checked_sample sample;
     beam_search := beam_search;
     eval := eval;
     train := train;
     state_dict := state_dict |}.

(** ** A model to run the definitions on

    Numbers are integers; the backend state counts the calls made to the
    model; every search returns, for each row of its input, the start
    symbol (index 5 here) followed by [max_predictions] times the
    symbol [a]. *)

Definition demo_hypothesis (max_predictions : Z) : list Z :=
  5%Z :: replicate (Z.to_nat max_predictions) 1%Z.

Fixpoint argmax_from (best_i best i : Z) (l : list Z) : Z :=
  match l with
  | [] => best_i
  | v :: l' =>
      if (best <? v)%Z then argmax_from i v (i + 1)%Z l'
      else argmax_from best_i best (i + 1)%Z l'
  end.

(** Integers stand in for the floating-point numbers; [nll] keeps the
    logits and the class apart, the other operations are the integer
    ones. *)
#[local] Instance demo_numeric : Numeric Z := {|
  nll logits k := (1000 * foldr Z.add 0 logits + k)%Z;
  mean_reduction terms := (foldr Z.add 0 terms / Z.of_nat (length terms))%Z;
  fsum losses := foldr Z.add 0%Z losses;
  fdiv a n := (a / Z.of_nat n)%Z;
  argmax logits :=
    match logits with
    | [] => 0%Z
    | v :: l => argmax_from 0 v 1 l
    end;
  round_100 v := v
|}.

(** The logits of the demonstration, one per symbol of its vocabulary:
    the symbol [a] is always the likeliest. *)
Definition demo_logits : list Z := [0; 1; 0; 0; 0; 0; 0; 0; 0; 0; 0; 0]%Z.

#[local] Instance demo_model : Seq2Seq Z nat nat := {|
  forward := λ (X Y : list (list Z)) b,
    (S b, Ok (fmap (λ y_n : list Z, fmap (λ _ : Z, demo_logits) y_n) Y));
  greedy_search := λ (X : list (list Z)) max_predictions b,
    (S b, Ok (fmap (λ _, demo_hypothesis max_predictions) X, fmap (λ _, 0%Z) X));
  sample := λ (X : list (list Z)) max_predictions temperature b,
    (S b, Ok (fmap (λ _, demo_hypothesis max_predictions) X));
  beam_search := λ (X : list (list Z)) max_predictions candidates beam_width b,
    (S b, Ok (fmap (λ _, replicate (Z.to_nat candidates)
                           (demo_hypothesis max_predictions)) X,
              fmap (λ _, replicate (Z.to_nat candidates) 0%Z) X));
  eval b := b;
  train b := b;
  state_dict b := b
|}.

(** The loader of the demonstration does not shuffle and yields one
    example per mini-batch. *)
#[local] Instance demo_torch : Torch nat (list (Tensor2 * Tensor2)) := {|
  Adam lr := ret tt;
  loader X Y batch_size := Ok (zip_with (λ x y, ([x], [y])) X Y);
  iter data_loader := ret data_loader;
  zero_grad := ret tt;
  backward x y := ret tt;
  step := λ b, (S b, Ok tt)
|}.

(** The vocabularies of the demonstration: the special symbols, two
    letters, the line feed, the characters the end marker is written
    with, and the full stop; the two maps are inverse to each other. *)
Definition demo_symbols : list str :=
  [lit "<PAD>"; lit "a"; lit "b"; lit "<END>"; [newline]; lit "<START>";
   lit "<"; lit "E"; lit "N"; lit "D"; lit ">"; lit "."].

Definition demo : Vocabularies :=
  {| in_vocabulary := list_to_map (imap (λ i c, (c, Z.of_nat i)) demo_symbols);
     out_vocabulary := list_to_map (imap (λ i c, (Z.of_nat i, c)) demo_symbols) |}.

Definition demo_world : world Z nat nat :=
  {| backend := 0; stdout := []; disk := ∅ |}.


(** * Properties *)

(** ** The end-symbol substitution *)

Lemma re_sub_end_cons end_ c s' :
  re_sub_end end_ (c :: s') =
    if bool_decide (end_ `prefix_of` c :: s') then
      if decide (length (match_rest end_ (c :: s')) < length (c :: s'))
      then end_ ++ re_sub_end end_ (match_rest end_ (c :: s'))
      else end_ ++ c :: re_sub_end end_ s'
    else c :: re_sub_end end_ s'.
Proof.
  simp re_sub_end.
  destruct (bool_decide (end_ `prefix_of` c :: s')); simpl; [|reflexivity].
  destruct (decide _); reflexivity.
Qed.

Lemma re_sub_nil end_ start :
  re_sub end_ start [] =
    match match_atoms (parse_end end_) start [] with
    | Some _ => end_
    | None => []
    end.
Proof.
  simp re_sub. by destruct (match_atoms (parse_end end_) start []).
Qed.

Lemma re_sub_cons end_ start c s' :
  re_sub end_ start (c :: s') =
    match match_atoms (parse_end end_) start (c :: s') with
    | Some m =>
        if decide (length (skip_dots m) < length (c :: s'))
        then end_ ++ re_sub end_ false (skip_dots m)
        else end_ ++ c :: re_sub end_ false s'
    | None => c :: re_sub end_ false s'
    end.
Proof.
  simp re_sub.
  destruct (match_atoms (parse_end end_) start (c :: s')) as [m|]; simpl;
    [|reflexivity].
  destruct (decide _); reflexivity.
Qed.

Lemma skip_dots_length s : length (skip_dots s) ≤ length s.
Proof.
  induction s as [|c s IH]; simpl; [lia|].
  destruct (is_newline c); simpl; lia.
Qed.

Lemma match_rest_length end_ s : length (match_rest end_ s) ≤ length s - length end_.
Proof.
  unfold match_rest. pose proof (skip_dots_length (drop (length end_) s)) as Hl.
  rewrite length_drop in Hl. lia.
Qed.

Lemma skip_dots_no_newline s : newline ∉ s → skip_dots s = [].
Proof.
  induction s as [|c s IH]; intros Hn; simpl; [reflexivity|].
  unfold is_newline. rewrite bool_decide_eq_false_2.
  - apply IH. intros Hin. apply Hn. by right.
  - intros ->. apply Hn. by left.
Qed.

Lemma skip_dots_at_line_end s : at_line_end (skip_dots s).
Proof.
  induction s as [|c s IH]; simpl; [by left|].
  unfold is_newline. case_bool_decide; [subst; right; eauto | exact IH].
Qed.

Lemma skip_dots_fixed s : at_line_end s → skip_dots s = s.
Proof.
  intros [->|[s' ->]]; reflexivity.
Qed.

Lemma prefix_of_take (end_ s : str) :
  end_ `prefix_of` s ↔ take (length end_) s = end_.
Proof.
  split.
  - intros [k ->]. by rewrite take_app_length.
  - intros Ht. exists (drop (length end_) s).
    by rewrite <- Ht at 1; rewrite take_drop.
Qed.

Lemma find_Some_split end_ s k :
  find end_ s = Some k →
  take (k + length end_) s = take k s ++ end_ ∧ k + length end_ ≤ length s.
Proof.
  revert k. induction s as [|c s IH]; intros k; simpl.
  - case_bool_decide as Hp; [|discriminate]. intros [= <-].
    destruct Hp as [r Hr]. symmetry in Hr. apply app_eq_nil in Hr as [-> _].
    simpl. split; [reflexivity|lia].
  - case_bool_decide as Hp.
    + intros [= <-]. simpl. apply prefix_of_take in Hp. split; [exact Hp|].
      destruct Hp. rewrite length_take. simpl. lia.
    + destruct (find end_ s) as [j|] eqn:Hf; [|discriminate].
      simpl. intros [= <-]. destruct (IH j eq_refl) as [Ht Hl].
      simpl. rewrite Ht. split; [reflexivity|lia].
Qed.

(** [find] returns the first occurrence: the end symbol starts at no
    earlier offset. *)
Lemma find_Some_first end_ s k j :
  find end_ s = Some k → j < k → ¬ end_ `prefix_of` drop j s.
Proof.
  revert k j. induction s as [|c s IH]; intros k j; simpl.
  - case_bool_decide; [intros [= <-]; lia|discriminate].
  - case_bool_decide as Hp; [intros [= <-]; lia|].
    destruct (find end_ s) as [i|] eqn:Hf; [|discriminate].
    simpl. intros [= <-] Hj. destruct j as [|j]; [exact Hp|].
    simpl. apply (IH i); [reflexivity|lia].
Qed.

(** Without a line feed in the text, the substitution cuts the text
    behind the first occurrence of the end symbol. *)
Lemma re_sub_end_truncates end_ s :
  newline ∉ s → re_sub_end end_ s = truncate_at_end end_ s.
Proof.
  unfold truncate_at_end. induction s as [|c s IH]; intros Hn.
  - simp re_sub_end. simpl. case_bool_decide; [by rewrite take_nil|done].
  - rewrite re_sub_end_cons. simpl find. case_bool_decide as Hp.
    + assert (match_rest end_ (c :: s) = []) as Hr.
      { unfold match_rest. apply skip_dots_no_newline.
        intros Hin. apply Hn. eapply elem_of_suffix; [exact Hin|apply suffix_drop]. }
      rewrite Hr. simpl length. rewrite decide_True by lia.
      simp re_sub_end. rewrite app_nil_r. simpl.
      apply prefix_of_take in Hp. by rewrite Hp.
    + rewrite IH by (intros Hin; apply Hn; by right).
      destruct (find end_ s) as [j|]; reflexivity.
Qed.

Lemma re_sub_end_take end_ s n :
  n ≤ length end_ → take n (re_sub_end end_ s) = take n s.
Proof.
  intros Hn.
  enough (take (length end_) (re_sub_end end_ s) = take (length end_) s) as Hfull.
  { rewrite <- (Nat.min_l _ _ Hn), <- !take_take. by rewrite Hfull. }
  clear n Hn. induction s as [|c s IH].
  - by simp re_sub_end.
  - rewrite re_sub_end_cons. case_bool_decide as Hp.
    + apply prefix_of_take in Hp. rewrite Hp.
      destruct (decide _); by rewrite take_app_length.
    + destruct end_ as [|e end']; [by destruct Hp; apply prefix_nil|].
      simpl. f_equal.
      rewrite <- (Nat.min_l (length end') (length (e :: end'))) by (simpl; lia).
      rewrite <- !take_take. by rewrite IH.
Qed.

Lemma re_sub_end_prefix_test end_ c s :
  bool_decide (end_ `prefix_of` c :: re_sub_end end_ s) =
  bool_decide (end_ `prefix_of` c :: s).
Proof.
  apply bool_decide_ext. rewrite !prefix_of_take.
  destruct end_ as [|e end']; [done|].
  simpl. by rewrite re_sub_end_take by (simpl; lia).
Qed.

Lemma re_sub_end_at_line_end end_ s :
  at_line_end s → at_line_end (re_sub_end end_ s).
Proof.
  intros [->|[s' ->]]; [left; by simp re_sub_end|].
  right. rewrite re_sub_end_cons. case_bool_decide as Hp; [|eauto].
  destruct end_ as [|e end'].
  - rewrite decide_False; [simpl; eauto|].
    unfold match_rest. simpl. lia.
  - destruct Hp as [k Hk]. injection Hk as <- _.
    destruct (decide _); simpl; eauto.
Qed.

Lemma re_sub_end_behind_end end_ t :
  at_line_end t → re_sub_end end_ (end_ ++ t) = end_ ++ re_sub_end end_ t.
Proof.
  intros Ht. destruct end_ as [|e end']; [reflexivity|].
  change ((e :: end') ++ t) with (e :: (end' ++ t)).
  rewrite re_sub_end_cons.
  rewrite bool_decide_eq_true_2 by (by exists t).
  assert (match_rest (e :: end') (e :: end' ++ t) = t) as ->.
  { unfold match_rest. simpl. rewrite drop_app_length. by apply skip_dots_fixed. }
  rewrite decide_True; [reflexivity|].
  simpl. rewrite length_app. lia.
Qed.

(** Substituting a second time changes nothing, whatever the text holds. *)
Lemma re_sub_end_idempotent end_ s :
  re_sub_end end_ (re_sub_end end_ s) = re_sub_end end_ s.
Proof.
  remember (length s) as n eqn:Hn. revert s Hn.
  induction n as [n IH] using lt_wf_ind. intros [|c s] Hn.
  - by simp re_sub_end.
  - rewrite (re_sub_end_cons end_ c s). case_bool_decide as Hp.
    + destruct (decide _) as [Hlt|Hge].
      * rewrite re_sub_end_behind_end
          by apply re_sub_end_at_line_end, skip_dots_at_line_end.
        f_equal. eapply IH; [|reflexivity]. subst n. exact Hlt.
      * pose proof (match_rest_length end_ (c :: s)) as Hl.
        destruct end_ as [|e end']; [|simpl in *; lia].
        simpl. rewrite re_sub_end_cons.
        rewrite bool_decide_eq_true_2 by apply prefix_nil.
        assert (is_newline c = true) as Hc.
        { unfold match_rest in Hge. simpl in Hge.
          destruct (is_newline c); [done|].
          pose proof (skip_dots_length s). lia. }
        rewrite decide_False.
        -- simpl. f_equal. eapply IH; [|reflexivity]. subst n. simpl. lia.
        -- unfold match_rest. simpl. rewrite Hc. simpl. lia.
    + rewrite re_sub_end_cons, re_sub_end_prefix_test.
      rewrite bool_decide_eq_false_2 by done.
      f_equal. eapply IH; [|reflexivity]. subst n. simpl. lia.
Qed.

(** For an end symbol that is literal text, the pattern matches where
    the end symbol stands, and the general substitution is the literal
    one, wherever the scan starts. *)
Lemma parse_atom_literal c : c ∉ regex_special → parse_atom c = Lit c.
Proof.
  intros Hc. unfold parse_atom.
  rewrite !bool_decide_eq_false_2; [reflexivity|..];
    intros ->; apply Hc; vm_compute; set_solver.
Qed.

Lemma match_atoms_literal end_ start s :
  regex_literal end_ = true →
  match_atoms (parse_end end_) start s =
    if bool_decide (end_ `prefix_of` s) then Some (drop (length end_) s) else None.
Proof.
  revert start s. induction end_ as [|e end_ IH]; intros start s Hlit.
  - by rewrite bool_decide_eq_true_2 by apply prefix_nil.
  - simpl in Hlit. apply andb_prop in Hlit as [He Hlit].
    apply negb_true_iff, bool_decide_eq_false in He.
    change (parse_end (e :: end_)) with (parse_atom e :: parse_end end_).
    rewrite (parse_atom_literal e He).
    destruct s as [|c s]; cbn [match_atoms].
    + rewrite bool_decide_eq_false_2; [reflexivity|].
      intros [k Hk]. discriminate.
    + destruct (decide (c = e)) as [->|Hc].
      * rewrite bool_decide_eq_true_2 by done. rewrite (IH false s Hlit).
        rewrite (bool_decide_ext (e :: end_ `prefix_of` e :: s) (end_ `prefix_of` s));
          [reflexivity|].
        split; [apply prefix_cons_inv_2|apply prefix_cons].
      * rewrite bool_decide_eq_false_2 by done.
        rewrite bool_decide_eq_false_2; [reflexivity|].
        intros Hp. apply prefix_cons_inv_1 in Hp. congruence.
Qed.

Lemma re_sub_literal end_ start s :
  regex_literal end_ = true → re_sub end_ start s = re_sub_end end_ s.
Proof.
  intros Hlit. remember (length s) as n eqn:Hn. revert start s Hn.
  induction n as [n IH] using lt_wf_ind. intros start [|c s] Hn.
  - rewrite re_sub_nil, match_atoms_literal by done. simp re_sub_end.
    case_bool_decide as Hp; [|reflexivity].
    destruct Hp as [k Hk]. symmetry in Hk. by apply app_eq_nil in Hk as [-> _].
  - rewrite re_sub_cons, re_sub_end_cons, match_atoms_literal by done.
    fold (match_rest end_ (c :: s)).
    case_bool_decide as Hp.
    + destruct (decide _) as [Hlt|Hge].
      * f_equal. eapply IH; [|reflexivity]. subst n. exact Hlt.
      * do 2 f_equal. eapply IH; [|reflexivity]. subst n. simpl. lia.
    + f_equal. eapply IH; [|reflexivity]. subst n. simpl. lia.
Qed.

(** ** Comprehensions that can raise *)

Lemma rmap_cases {A B} (f : A → result B) (l : list A) (e0 : exn) :
  (∀ x e, f x = Raise e → e = e0) →
  (∃ ys, rmap f l = Ok ys ∧ Forall2 (λ x y, f x = Ok y) l ys) ∨
  (rmap f l = Raise e0 ∧ ∃ x, x ∈ l ∧ f x = Raise e0).
Proof.
  intros He. induction l as [|a l IH]; simpl.
  - left. eauto using Forall2_nil.
  - destruct (f a) as [b|e] eqn:Hfa; simpl.
    + destruct IH as [(ys & -> & Hys)|(-> & x & Hx & Hfx)]; simpl.
      * left. eauto using Forall2_cons.
      * right. split; [reflexivity|]. exists x. split; [by apply list_elem_of_further|done].
    + right. pose proof (He _ _ Hfa) as ->. split; [reflexivity|].
      exists a. split; [apply list_elem_of_here|done].
Qed.

Lemma rmap_Ok_Forall2 {A B} (f : A → result B) (l : list A) ys :
  rmap f l = Ok ys ↔ Forall2 (λ x y, f x = Ok y) l ys.
Proof.
  revert ys. induction l as [|a l IH]; intros ys; simpl.
  - split; [intros [= <-]; constructor | by inversion 1].
  - destruct (f a) as [b|e] eqn:Hfa; simpl.
    + destruct (rmap f l) as [bs|e]; simpl.
      * split.
        -- intros [= <-]. constructor; [done|]. by apply IH.
        -- inversion 1 as [|? y ? ys' Hy Hys]; subst.
           apply IH in Hys. congruence.
      * split; [done|]. inversion 1 as [|? y ? ys' Hy Hys]; subst.
        by apply IH in Hys.
    + split; [done|]. inversion 1; congruence.
Qed.

Lemma getitem_raises `{Countable K} {V} (d : gmap K V) k e :
  getitem d k = Raise e → e = KeyError.
Proof. unfold getitem. destruct (d !! k); congruence. Qed.

Lemma getitem_Ok `{Countable K} {V} (d : gmap K V) k v :
  getitem d k = Ok v ↔ d !! k = Some v.
Proof. unfold getitem. destruct (d !! k); split; congruence. Qed.

Lemma encode_raises self l e : encode self l = Raise e → e = KeyError.
Proof.
  unfold encode. intros Hl.
  destruct (rmap_cases (getitem (in_vocabulary self)) l KeyError) as [(ys & Hys & _)|[Hr _]];
    [apply getitem_raises | congruence | congruence].
Qed.

Lemma pad_sequence_Ok rows :
  rows ≠ [] →
  ∃ X : list (list Z), pad_sequence rows = Ok X ∧ length X = length rows ∧
       ∀ n row, rows !! n = Some row → ∃ k, X !! n = Some (row ++ replicate k 0%Z).
Proof.
  destruct rows as [|r rows]; [done|]. intros _.
  exists ((λ row, row ++ replicate (max_list (length <$> r :: rows) - length row) 0%Z)
            <$> r :: rows).
  split; [reflexivity|]. split; [by rewrite length_fmap|].
  intros n row Hn. eexists. rewrite list_lookup_fmap, Hn. reflexivity.
Qed.

Lemma encode_Ok self l row :
  encode self l = Ok row ↔ Forall2 (λ c i, in_vocabulary self !! c = Some i) l row.
Proof.
  unfold encode. rewrite rmap_Ok_Forall2. split; intros Hall;
    (eapply Forall2_impl; [exact Hall|]); intros c i; by apply getitem_Ok.
Qed.

(** ** Claims about the tokenizer and the detokenizer *)

(** C7 (as amended).  [text2tensor] raises [KeyError], a [LookupError],
    as soon as one string holds a symbol that is absent from the input
    vocabulary; nothing catches it.  When every symbol is present and the
    batch holds at least one string, it returns a tensor with one row per
    string: the indices of the symbols of the string, then padding. *)
Theorem text2tensor_lookup self strings :
  ((∃ l c, l ∈ strings ∧ c ∈ l ∧ in_vocabulary self !! c = None) →
   text2tensor self strings = Raise KeyError ∧ is_LookupError KeyError = true) ∧
  ((∀ l c, l ∈ strings → c ∈ l → is_Some (in_vocabulary self !! c)) →
   strings ≠ [] →
   ∃ X : list (list Z),
     text2tensor self strings = Ok X ∧ length X = length strings ∧
        ∀ n l, strings !! n = Some l →
          ∃ row k, X !! n = Some (row ++ replicate k 0%Z) ∧
                   Forall2 (λ c i, in_vocabulary self !! c = Some i) l row).
Proof.
  unfold text2tensor.
  destruct (rmap_cases (encode self) strings KeyError (encode_raises self))
    as [(rows & Hrows & Hall)|(Hraise & l & Hl & Hfl)].
  - rewrite Hrows. simpl. split.
    + intros (l & c & Hl & Hc & Hnone). exfalso.
      apply list_elem_of_lookup in Hl as [i Hi].
      destruct (Forall2_lookup_l _ _ _ _ _ Hall Hi) as (row & _ & Hrow).
      apply encode_Ok in Hrow.
      apply list_elem_of_lookup in Hc as [j Hj].
      destruct (Forall2_lookup_l _ _ _ _ _ Hrow Hj) as (v & _ & Hv).
      congruence.
    + intros _ Hne. destruct (pad_sequence_Ok rows) as (X & HX & Hlen & Hpad).
      { intros ->. apply Forall2_nil_inv_r in Hall. done. }
      exists X. split; [done|]. split.
      { rewrite Hlen. symmetry. eapply Forall2_length, Hall. }
      intros n l Hn.
      destruct (Forall2_lookup_l _ _ _ _ _ Hall Hn) as (row & Hrow & Henc).
      destruct (Hpad n row Hrow) as [k Hk].
      exists row, k. split; [exact Hk|]. by apply encode_Ok.
  - rewrite Hraise. simpl. split; [done|].
    intros Hall _. exfalso.
    destruct (rmap_cases (getitem (in_vocabulary self)) l KeyError) as
      [(ys & Hys & _)|(_ & c & Hc & Hfc)]; [apply getitem_raises| |].
    + unfold encode in Hfl. congruence.
    + destruct (Hall l c Hl Hc) as [v Hv]. apply getitem_Ok in Hv. congruence.
Qed.

Lemma text2tensor_lookup_witness :
  text2tensor demo [chars (lit "ab"); chars (lit "az")] = Raise KeyError ∧
  ∃ X, text2tensor demo [chars (lit "ab"); chars (lit "a")] = Ok X ∧ length X = 2.
Proof.
  split.
  - apply (text2tensor_lookup demo [chars (lit "ab"); chars (lit "az")]).
    exists (chars (lit "az")), (lit "z").
    split; [apply list_elem_of_further, list_elem_of_here|].
    split; [apply list_elem_of_further, list_elem_of_here|reflexivity].
  - destruct (text2tensor_lookup demo [chars (lit "ab"); chars (lit "a")])
      as [_ Hok].
    destruct Hok as (X & HX & Hlen & _); [|done|by exists X].
    intros l c Hl Hc.
    repeat (apply elem_of_cons in Hl as [->|Hl]);
      [| |by apply elem_of_nil in Hl];
      repeat (apply elem_of_cons in Hc as [->|Hc]);
      try (by apply elem_of_nil in Hc); vm_compute; eauto.
Defined.

(** C7 as stated fails on the empty batch: no symbol is absent, and the
    padding routine refuses the empty list of sequences. *)
Lemma text2tensor_empty_batch :
  (∀ l c, l ∈ ([] : list (list str)) → c ∈ l → is_Some (in_vocabulary demo !! c)) ∧
  ¬ ∃ X, text2tensor demo [] = Ok X.
Proof.
  split.
  - intros l c Hl. by apply elem_of_nil in Hl.
  - intros [X HX]. vm_compute in HX. discriminate.
Qed.

Lemma row2text_raises vocabulary separator end_ l e :
  row2text vocabulary separator end_ l = Raise e → e = KeyError.
Proof.
  unfold row2text.
  destruct (rmap_cases (getitem vocabulary) l KeyError) as [(ys & -> & _)|[-> _]];
    [apply getitem_raises | discriminate | simpl; congruence].
Qed.

Lemma row2text_Ok vocabulary separator end_ l :
  (∀ i, i ∈ l → is_Some (vocabulary !! i)) →
  ∃ symbols, rmap (getitem vocabulary) l = Ok symbols ∧
    row2text vocabulary separator end_ l = Ok (re_sub end_ true (join separator symbols)).
Proof.
  intros Hall. unfold row2text.
  destruct (rmap_cases (getitem vocabulary) l KeyError)
    as [(ys & -> & _)|(_ & i & Hi & Hfi)]; [apply getitem_raises|eauto|].
  destruct (Hall i Hi) as [v Hv]. apply getitem_Ok in Hv. congruence.
Qed.

(** C10 (as amended).  For an end symbol that is literal text for the
    [re] module (none of its characters is special in a regular
    expression, as in the default [<END>]): when every index of the batch
    is a key of the vocabulary, [tensor2text] returns one text per row;
    for a row whose joined symbol string holds the end symbol (first at
    offset [k], at no earlier offset) and no line feed, that text is the
    joined string up to and including this first occurrence: what stands
    before the end symbol, then the end symbol itself as its last
    characters. *)
Theorem tensor2text_keeps_end_marker self X separator vocabulary end_ :
  regex_literal end_ = true →
  (∀ l i, l ∈ X → i ∈ l → is_Some (default (out_vocabulary self) vocabulary !! i)) →
  ∃ texts, tensor2text self X separator vocabulary end_ = Ok texts ∧
    ∀ n l symbols k,
      X !! n = Some l →
      rmap (getitem (default (out_vocabulary self) vocabulary)) l = Ok symbols →
      find end_ (join separator symbols) = Some k →
      newline ∉ join separator symbols →
      texts !! n = Some (take (k + length end_) (join separator symbols)) ∧
      take (k + length end_) (join separator symbols) =
        take k (join separator symbols) ++ end_ ∧
      ∀ j, j < k → ¬ end_ `prefix_of` drop j (join separator symbols).
Proof.
  intros Hlit Hkeys. unfold tensor2text. simpl.
  set (voc := default (out_vocabulary self) vocabulary) in *.
  destruct (rmap_cases (row2text voc separator end_) X KeyError)
    as [(texts & Htexts & Hall)|(_ & l & Hl & Hfl)];
    [apply row2text_raises| |].
  - exists texts. split; [exact Htexts|].
    intros n l symbols k Hn Hsym Hfind Hnl.
    destruct (Forall2_lookup_l _ _ _ _ _ Hall Hn) as (t & Ht & Hrow).
    unfold row2text in Hrow. rewrite Hsym in Hrow. simpl in Hrow.
    injection Hrow as <-.
    rewrite re_sub_literal, re_sub_end_truncates in Ht by done.
    unfold truncate_at_end in Ht. rewrite Hfind in Ht.
    split; [exact Ht|]. split; [by apply find_Some_split|].
    intros j Hj. by eapply find_Some_first.
  - exfalso. destruct (row2text_Ok voc separator end_ l) as (symbols & _ & Hok);
      [intros i Hi; by apply (Hkeys l)|congruence].
Qed.

Lemma tensor2text_keeps_end_marker_witness :
  ∃ texts,
    tensor2text demo [[1; 3; 2; 3; 1]%Z] default_separator None default_end = Ok texts ∧
    texts !! 0 = Some (lit "a<END>").
Proof.
  destruct (tensor2text_keeps_end_marker demo [[1; 3; 2; 3; 1]%Z]
              default_separator None default_end) as (texts & Htexts & Hrow).
  - reflexivity.
  - intros l i Hl Hi. apply list_elem_of_singleton in Hl as ->.
    repeat (apply elem_of_cons in Hi as [->|Hi]);
      try (by apply elem_of_nil in Hi); vm_compute; eauto.
  - exists texts. split; [exact Htexts|].
    apply (Hrow 0 [1; 3; 2; 3; 1]%Z [lit "a"; lit "<END>"; lit "b"; lit "<END>"; lit "a"] 1).
    + reflexivity.
    + reflexivity.
    + reflexivity.
    + vm_compute. intros Hin.
      repeat (apply elem_of_cons in Hin as [Hin|Hin]; [discriminate|]).
      by apply elem_of_nil in Hin.
Defined.

(** C10 as stated fails for an end symbol that the [re] module reads as
    a pattern.  With the end symbol [.] the row joins to [a.a], which
    holds the end symbol, first at offset 1, and no line feed.  The claim
    asks for [a.]; the code returns [.], since the pattern [..*] matches
    the whole row from its first character on. *)
Lemma tensor2text_end_marker_as_pattern :
  tensor2text demo [[1; 11; 1]%Z] default_separator None (lit ".") = Ok [lit "."] ∧
  rmap (getitem (out_vocabulary demo)) [1; 11; 1]%Z = Ok [lit "a"; lit "."; lit "a"] ∧
  find (lit ".") (join default_separator [lit "a"; lit "."; lit "a"]) = Some 1 ∧
  (newline ∉ join default_separator [lit "a"; lit "."; lit "a"]) ∧
  take (1 + length (lit ".")) (join default_separator [lit "a"; lit "."; lit "a"])
    = lit "a.".
Proof.
  repeat split; try (vm_compute; reflexivity).
  vm_compute. intros Hin.
  repeat (apply elem_of_cons in Hin as [Hin|Hin]; [discriminate|]).
  by apply elem_of_nil in Hin.
Qed.

(** C2, at an input where the code departs from it.  The row joins to
    [a<END>b], a line feed, [a<END>b].  The claim asks for [a<END>]:
    everything behind the first end marker dropped.  The code returns
    [a<END>], the line feed and [a<END>]: the substitution stops at the
    line feed and starts again behind it. *)
Theorem tensor2text_line_feed_survives :
  tensor2text demo [[1; 3; 2; 4; 1; 3; 2]%Z] default_separator None default_end
    = Ok [lit "a<END>" ++ [newline] ++ lit "a<END>"] ∧
  truncate_at_end default_end (lit "a<END>b" ++ [newline] ++ lit "a<END>b")
    = lit "a<END>".
Proof. split; vm_compute; reflexivity. Qed.

(** C3, at an input where the code departs from it.  The string [a<END>b],
    line feed, [a] is made of symbols of the vocabulary; truncated at
    its first end marker it is [a<END>].  The round trip returns [a<END>],
    the line feed and [a]. *)
Theorem round_trip_line_feed_survives :
  round_trip demo (chars (lit "a<END>b" ++ [newline] ++ lit "a"))
    = Ok [lit "a<END>" ++ [newline] ++ lit "a"] ∧
  truncate_at_end default_end
    (join default_separator (chars (lit "a<END>b" ++ [newline] ++ lit "a")))
    = lit "a<END>".
Proof. split; vm_compute; reflexivity. Qed.

Lemma pad_sequence_singleton row : pad_sequence [row] = Ok [row].
Proof.
  unfold pad_sequence. simpl. rewrite Nat.max_0_r, Nat.sub_diag. simpl.
  by rewrite app_nil_r.
Qed.

(** The round trip itself: over two vocabularies that are inverse to each
    other on the symbols of the text, it returns the text with the end
    substitution applied, which is the truncation at the first end marker
    when the text holds no line feed. *)
Lemma round_trip_substitutes self S :
  (∀ c, c ∈ S → ∃ i, in_vocabulary self !! c = Some i ∧
                       out_vocabulary self !! i = Some c) →
  round_trip self S = Ok [re_sub_end default_end (join default_separator S)] ∧
  (newline ∉ join default_separator S →
   round_trip self S = Ok [truncate_at_end default_end (join default_separator S)]).
Proof.
  intros Hinv.
  assert (∃ row, encode self S = Ok row ∧
                 rmap (getitem (out_vocabulary self)) row = Ok S) as (row & Hrow & Hback).
  { unfold encode. induction S as [|c S IH]; simpl; [eauto|].
    destruct (Hinv c) as (i & Hi & Ho); [apply list_elem_of_here|].
    destruct IH as (row & Hrow & Hback).
    { intros c' Hc'. apply Hinv. by apply list_elem_of_further. }
    exists (i :: row). unfold getitem at 1. rewrite Hi. simpl. rewrite Hrow. simpl.
    split; [reflexivity|]. unfold getitem at 1. rewrite Ho. simpl. by rewrite Hback. }
  assert (round_trip self S = Ok [re_sub_end default_end (join default_separator S)]) as Hrt.
  { unfold round_trip, text2tensor. cbn [rmap rbind]. rewrite Hrow. cbn [rbind].
    rewrite pad_sequence_singleton. cbn [rbind].
    unfold tensor2text. cbn [default rmap]. unfold row2text.
    rewrite Hback. cbn [rbind]. by rewrite re_sub_literal. }
  split; [exact Hrt|]. intros Hnl. by rewrite Hrt, re_sub_end_truncates.
Qed.

(** ** The loss of a mini-batch *)

Section TransposeFacts.
Context {A : Type}.
Implicit Types (m : list (list A)) (row : list A).

Lemma column_singletons row : column ((λ a, [a]) <$> row) 0 = row.
Proof. unfold column. induction row as [|a row IH]; csimpl; by f_equal. Qed.

Lemma column_cons_0 row (cols : list (list A)) :
  length cols = length row → column (zip_with cons row cols) 0 = row.
Proof.
  unfold column. revert cols.
  induction row as [|a row IH]; intros [|col cols] Hlen; csimpl in *;
    try done; f_equal; apply IH; lia.
Qed.

Lemma column_cons_S row (cols : list (list A)) t :
  length cols = length row →
  column (zip_with cons row cols) (S t) = column cols t.
Proof.
  unfold column. revert cols.
  induction row as [|a row IH]; intros [|col cols] Hlen; csimpl in *;
    try done. rewrite IH by lia. reflexivity.
Qed.

(** The transpose of a T x C matrix (T > 0) has C rows of length T. *)
Lemma transpose_shape m C :
  m ≠ [] → Forall (λ row, length row = C) m →
  length (transpose m) = C ∧ Forall (λ col, length col = length m) (transpose m).
Proof.
  induction m as [|row m IH]; [done|]. intros _ Hrect.
  apply Forall_cons in Hrect as [Hrow Hrect].
  destruct m as [|row' m'].
  - simpl. split; [by rewrite length_fmap|].
    apply Forall_fmap, Forall_true. done.
  - destruct IH as [Hlen Hcols]; [done|done|].
    change (transpose (row :: row' :: m'))
      with (zip_with cons row (transpose (row' :: m'))).
    split.
    + rewrite length_zip_with_l_eq; congruence.
    + apply (Forall_zip_with_snd cons (λ col, length col = length (row' :: m'))
               (λ col, length col = length (row :: row' :: m'))); [|done].
      apply Forall_true. intros a col Hcol. simpl in *. lia.
Qed.

(** Its column [t] is row [t] of the matrix. *)
Lemma transpose_column m C t row :
  Forall (λ row, length row = C) m → m !! t = Some row →
  column (transpose m) t = row.
Proof.
  revert t. induction m as [|row0 m IH]; intros t Hrect Ht; [done|].
  apply Forall_cons in Hrect as [Hrow Hrect].
  destruct m as [|row' m'].
  - destruct t as [|t]; [|done]. injection Ht as <-. apply column_singletons.
  - change (transpose (row0 :: row' :: m'))
      with (zip_with cons row0 (transpose (row' :: m'))).
    destruct (transpose_shape (row' :: m') C) as [Hlen _]; [done|done|].
    destruct t as [|t].
    + injection Ht as <-. apply column_cons_0. congruence.
    + rewrite column_cons_S by congruence. by apply IH.
Qed.

Lemma column_drop_last_column m T t :
  Forall (λ col, length col = T) m → t < T - 1 →
  column (drop_last_column m) t = column m t.
Proof.
  intros Hm Ht. unfold column, drop_last_column.
  induction Hm as [|col m Hcol _ IH]; [done|].
  csimpl. rewrite lookup_take_lt by lia. by rewrite IH.
Qed.

End TransposeFacts.

Section CriterionProperties.
Context {num : Type} `{!Numeric num}.
Implicit Types (p : list (list num)) (y_n : list Z).
Implicit Types (forward_x_y : list (list (list num))) (y : Tensor2).

Lemma zip_with_Forall2_ext {X Y W} (f g : X → Y → W) l k :
  Forall2 (λ a b, f a b = g a b) l k → zip_with f l k = zip_with g l k.
Proof. induction 1; simpl; by f_equal. Qed.

(** One example: what the criterion counts on the transposed, shortened
    prediction and the shifted target is the shifted, masked comparison. *)
Lemma example_terms_shifted p y_n C :
  length p = length y_n → Forall (λ logits, length logits = C) p →
  example_terms 0 (drop_last_column (transpose p)) (drop 1 y_n)
    = shifted_masked_terms_of p y_n.
Proof.
  intros Hlen Hrect. unfold example_terms, shifted_masked_terms_of.
  destruct y_n as [|k0 ys]; [reflexivity|].
  simpl length in *. rewrite seq_S, fmap_app, join_app.
  change (drop 1 (k0 :: ys)) with ys.
  match goal with |- _ = _ ++ ?last => replace last with (@nil num) end.
  2:{ csimpl. rewrite (lookup_ge_None_2 (k0 :: ys)) by (simpl; lia).
      by destruct (p !! length ys). }
  rewrite app_nil_r. f_equal.
  apply list_eq. intros i. rewrite list_lookup_imap, list_lookup_fmap.
  destruct (decide (i < length ys)) as [Hi|Hi].
  - rewrite lookup_seq_lt by done.
    destruct (lookup_lt_is_Some_2 ys i Hi) as [k Hk].
    destruct (lookup_lt_is_Some_2 p i ltac:(lia)) as [logits Hlogits].
    rewrite Hk. simpl. rewrite Hlogits.
    replace ((k0 :: ys) !! (i + 1)) with (Some k)
      by (by rewrite Nat.add_1_r).
    case_bool_decide; [reflexivity|]. do 3 f_equal.
    assert (p ≠ []) as Hp by (intros ->; simpl in *; lia).
    destruct (transpose_shape p C Hp Hrect) as [_ Hcols].
    rewrite (column_drop_last_column _ (length p)) by (done || lia).
    by eapply transpose_column.
  - rewrite (lookup_ge_None_2 ys) by lia.
    rewrite (lookup_ge_None_2 (seq 0 (length ys))) by (rewrite length_seq; lia).
    reflexivity.
Qed.

Lemma fit_loss_shapes forward_x_y y :
  forward_shape forward_x_y y →
  criterion_shapes (drop_last_time (transpose12 forward_x_y)) (drop_first_column y).
Proof.
  unfold forward_shape, drop_last_time, transpose12, drop_first_column.
  intros Hshape. cbv beta delta [criterion_shapes]. rewrite <- list_fmap_compose. apply Forall2_fmap.
  eapply Forall2_impl; [exact Hshape|].
  intros p y_n [Hlen [C Hrect]]. simpl.
  destruct (decide (p = [])) as [->|Hp]; [constructor|].
  destruct (transpose_shape p C Hp Hrect) as [_ Hcols].
  unfold drop_last_column. apply Forall_fmap.
  eapply Forall_impl; [exact Hcols|].
  intros col Hcol. simpl in *. rewrite length_take, length_drop. lia.
Qed.

(** One example: the criterion finds every target among its classes
    when every true symbol behind the first is the padding index or an
    index into the logits of the position before it. *)
Lemma example_targets p y_n C :
  length p = length y_n → Forall (λ logits, length logits = C) p →
  Forall (λ k, k = 0%Z ∨ (0 ≤ k < Z.of_nat (length (drop_last_column (transpose p))))%Z)
         (drop 1 y_n)
  ↔ Forall (λ lk : list num * Z, lk.2 = 0%Z ∨ (0 ≤ lk.2 < Z.of_nat (length lk.1))%Z)
           (zip p (drop 1 y_n)).
Proof.
  intros Hlen Hrect.
  destruct (decide (p = [])) as [->|Hp].
  { destruct y_n; [|done]. split; constructor. }
  destruct (transpose_shape p C Hp Hrect) as [HC _].
  unfold drop_last_column. rewrite length_fmap, HC.
  rewrite !Forall_lookup. split.
  - intros Hall t [logits k] Ht.
    apply lookup_zip_with_Some in Ht as (logits' & k' & [= -> ->] & Hl & Hk).
    simpl. rewrite (Forall_lookup_1 _ _ _ _ Hrect Hl). by eapply Hall.
  - intros Hall t k Hk.
    destruct (lookup_lt_is_Some_2 p t) as [logits Hl].
    { apply lookup_lt_Some in Hk. rewrite length_drop in Hk. lia. }
    rewrite <- (Forall_lookup_1 _ _ _ _ Hrect Hl).
    apply (Hall t (logits, k)). apply lookup_zip_with_Some. eauto.
Qed.

Lemma fit_loss_targets forward_x_y y :
  forward_shape forward_x_y y →
  criterion_targets 0 (drop_last_time (transpose12 forward_x_y)) (drop_first_column y)
  ↔ targets_in_range forward_x_y y.
Proof.
  unfold criterion_targets, targets_in_range, drop_last_time, transpose12,
    drop_first_column.
  rewrite <- list_fmap_compose, Forall2_fmap.
  induction 1 as [|p y_n forward_x_y y [Hlen [C Hrect]] _ IH].
  - split; constructor.
  - rewrite !Forall2_cons, IH. simpl. by rewrite (example_targets p y_n C).
Qed.

(** What the criterion of [fit] returns on a prediction that has the
    shape of [y]. *)
Lemma criterion_cases forward_x_y y :
  forward_shape forward_x_y y →
  CrossEntropyLoss 0 (drop_last_time (transpose12 forward_x_y)) (drop_first_column y)
    = if decide (targets_in_range forward_x_y y)
      then Ok (mean_reduction (shifted_masked_terms forward_x_y y))
      else Raise IndexError.
Proof.
  intros Hshape. unfold CrossEntropyLoss.
  rewrite decide_True.
  2:{ unfold drop_last_time, transpose12, drop_first_column.
      rewrite !length_fmap. eapply Forall2_length, Hshape. }
  rewrite decide_True by (by apply fit_loss_shapes).
  pose proof (fit_loss_targets _ _ Hshape) as Hiff.
  destruct (decide (targets_in_range forward_x_y y)) as [Hr|Hr].
  - rewrite decide_True by (by apply Hiff).
    do 2 f_equal. unfold shifted_masked_terms, drop_last_time, transpose12,
      drop_first_column.
    rewrite <- list_fmap_compose, zip_with_fmap_l, zip_with_fmap_r.
    f_equal. apply zip_with_Forall2_ext.
    eapply Forall2_impl; [exact Hshape|].
    intros p y_n [Hlen [C Hrect]]. simpl. by eapply example_terms_shifted.
  - rewrite decide_False; [reflexivity|]. intros Hc. by apply Hr, Hiff.
Qed.

Lemma criterion_shifted_and_masked forward_x_y y :
  forward_shape forward_x_y y →
  targets_in_range forward_x_y y →
  CrossEntropyLoss 0 (drop_last_time (transpose12 forward_x_y)) (drop_first_column y)
    = Ok (mean_reduction (shifted_masked_terms forward_x_y y)).
Proof.
  intros Hshape Hrange. by rewrite criterion_cases, decide_True.
Qed.

(** The condition on the true symbols, position by position. *)
Lemma targets_in_range_lookup forward_x_y y :
  length forward_x_y = length y →
  targets_in_range forward_x_y y ↔
  ∀ n p y_n t logits k,
    forward_x_y !! n = Some p → y !! n = Some y_n →
    p !! t = Some logits → y_n !! (t + 1) = Some k → k ≠ 0%Z →
    (0 ≤ k < Z.of_nat (length logits))%Z.
Proof.
  intros Hlen. unfold targets_in_range. rewrite Forall2_same_length_lookup. split.
  - intros [_ Hall] n p y_n t logits k Hp Hy Hl Hk Hk0.
    specialize (Hall n p y_n Hp Hy). rewrite Forall_lookup in Hall.
    destruct (Hall t (logits, k)) as [?|?]; [|done|done].
    apply lookup_zip_with_Some. exists logits, k.
    rewrite lookup_drop, Nat.add_comm. done.
  - intros Hall. split; [exact Hlen|]. intros n p y_n Hp Hy.
    apply Forall_lookup. intros t [logits k] Ht.
    apply lookup_zip_with_Some in Ht as (logits' & k' & [= -> ->] & Hl & Hk).
    rewrite lookup_drop, Nat.add_comm in Hk. simpl.
    destruct (decide (k' = 0%Z)) as [?|Hk0]; [by left|right]. by eapply Hall.
Qed.

(** The terms of one example depend on the true symbols behind the first
    one and on the predictions at the positions whose next true symbol is
    not the padding index: the first true symbol, the last predicted
    position and the predictions at padded positions are free. *)
Lemma shifted_masked_terms_of_agree p p' y_n y_n' :
  length y_n' = length y_n →
  (∀ t, y_n' !! (t + 1) = y_n !! (t + 1)) →
  (∀ t k, y_n !! (t + 1) = Some k → k ≠ 0%Z → p' !! t = p !! t) →
  shifted_masked_terms_of p' y_n' = shifted_masked_terms_of p y_n.
Proof.
  intros Hlen Hy Hp. unfold shifted_masked_terms_of. rewrite Hlen. f_equal.
  apply list_fmap_ext. intros _ t _. rewrite Hy.
  destruct (y_n !! (t + 1)) as [k|] eqn:Hk.
  - destruct (decide (k = 0%Z)) as [->|Hk0].
    + by destruct (p' !! t), (p !! t).
    + by rewrite (Hp t k Hk Hk0).
  - by destruct (p' !! t), (p !! t).
Qed.

End CriterionProperties.

(** ** Claims about the generation facade *)

Section GenerateProperties.
Context {num B P : Type} `{!Seq2Seq num B P}.

(** C4, where the code departs from it.  With the default method
    [greedy_search], on an input that tokenizes and a search that returns
    its pair (sequences, scores), [generate] binds the whole pair to [Y];
    [Y[:, 1:]] then raises [TypeError] and no text is returned.  The
    claim asks for the detokenization of the input followed by the found
    sequences without their start symbol. *)
Theorem generate_greedy_search_raises self input_text max_predictions temperature
    candidates beam_width b X b' sequences scores :
  text2tensor self input_text = Ok X →
  greedy_search X max_predictions b = (b', Ok (sequences, scores)) →
  generate self input_text max_predictions "greedy_search" temperature
           candidates beam_width b
    = (b', Raise TypeError).
Proof.
  intros HX Hsearch. unfold generate, bind, of_result. rewrite HX.
  simpl. by rewrite Hsearch.
Qed.

(** The two other strategies do what C4 says: the sampled sequences, or
    the first hypothesis of every beam, are appended to the input without
    their start symbol and detokenized. *)
Lemma generate_sample self input_text max_predictions t candidates beam_width
    b X b' Y :
  text2tensor self input_text = Ok X →
  sample X max_predictions (Some t) b = (b', Ok Y) →
  generate self input_text max_predictions "sample" (Some t) candidates beam_width b
    = (b', continuation_text self X Y).
Proof.
  intros HX Hsample. unfold generate, bind, of_result, continuation_text.
  rewrite HX. simpl. rewrite Hsample. unfold ret.
  simpl. by destruct (cat_axis1 X (drop_first_column Y)).
Qed.

Lemma generate_beam_search self input_text max_predictions temperature c w
    b X b' Y log_probabilities :
  text2tensor self input_text = Ok X →
  beam_search X max_predictions c w b = (b', Ok (Y, log_probabilities)) →
  generate self input_text max_predictions "beam_search" temperature
           (Some c) (Some w) b
    = (b', rbind (select_first Y) (continuation_text self X)).
Proof.
  intros HX Hbeam. unfold generate, bind, of_result, continuation_text.
  rewrite HX. simpl. rewrite Hbeam. unfold ret. simpl.
  destruct (select_first Y) as [Y0|e]; [|reflexivity]. simpl.
  by destruct (cat_axis1 X (drop_first_column Y0)).
Qed.

(** C5 (as amended).  For a method name outside the three recognized ones
    [generate] fails without any call to the model: the backend state is
    returned untouched, for every model, also one that records its
    invocations there.  The failure is [ValueError] when the input
    tokenizes, and the error of the tokenizer otherwise, since the input
    is tokenized before the method name is looked at. *)
Theorem generate_unknown_method self input_text max_predictions method temperature
    candidates beam_width b :
  method ≠ "greedy_search"%string →
  method ≠ "sample"%string →
  method ≠ "beam_search"%string →
  generate self input_text max_predictions method temperature candidates beam_width b
    = (b, match text2tensor self input_text with
          | Ok _ => Raise ValueError
          | Raise e => Raise e
          end) ∧
  is_InvalidArgument ValueError = true.
Proof.
  intros H1 H2 H3. split; [|reflexivity].
  unfold generate, bind, of_result.
  destruct (text2tensor self input_text) as [X|e]; [|reflexivity].
  by rewrite !bool_decide_eq_false_2.
Qed.

End GenerateProperties.

Lemma generate_greedy_search_raises_witness :
  generate demo [chars (lit "ab")] 3 "greedy_search" (Some 1%Q) (Some 5%Z) (Some 5%Z) 0
    = (1, Raise TypeError).
Proof.
  apply (generate_greedy_search_raises demo [chars (lit "ab")] 3 (Some 1%Q)
           (Some 5%Z) (Some 5%Z) 0 [[1; 2]]%Z 1
           [demo_hypothesis 3] [0%Z]).
  - vm_compute. reflexivity.
  - reflexivity.
Defined.

Lemma generate_unknown_method_witness :
  generate demo [chars (lit "ab")] 3 "viterbi" (Some 1%Q) (Some 5%Z) (Some 5%Z) 0
    = (0, Raise ValueError).
Proof.
  destruct (generate_unknown_method demo [chars (lit "ab")] 3 "viterbi"
              (Some 1%Q) (Some 5%Z) (Some 5%Z) 0) as [Hrun _];
    [discriminate..|].
  rewrite Hrun. vm_compute. reflexivity.
Defined.

(** C5 as stated fails on an input that holds a symbol outside the
    vocabulary: the method name is unknown, and the failure is the
    [KeyError] of the tokenizer, not an [InvalidArgument]. *)
Lemma generate_unknown_method_unknown_symbol :
  generate demo [chars (lit "az")] 3 "viterbi" (Some 1%Q) (Some 5%Z) (Some 5%Z) 0
    = (0, Raise KeyError) ∧
  is_InvalidArgument KeyError = false.
Proof. split; vm_compute; reflexivity. Qed.

(** C6 (as amended), with the argument check of [sample] modelled from
    the specification.  When [generate] is called with the method
    [sample] on an input that tokenizes: a temperature of [None] fails
    the assertion of [generate] with [AssertionError]; a temperature that
    is a number and not positive is refused by [sample] with
    [ValueError], before any call to the model; a positive temperature is
    accepted, the sampling loop runs and its sequences are appended to the
    input and detokenized. *)
Theorem generate_sample_temperature {num B P} (model : Seq2Seq num B P)
    self input_text max_predictions temperature candidates beam_width b X :
  text2tensor self input_text = Ok X →
  let run := @generate num B P (with_checked_sample model) self input_text
               max_predictions "sample" temperature candidates beam_width b in
  (temperature = None → run = (b, Raise AssertionError)) ∧
  (∀ t, temperature = Some t → (t <= 0)%Q →
     run = (b, Raise ValueError) ∧ is_InvalidArgument ValueError = true) ∧
  (∀ t, temperature = Some t → (0 < t)%Q →
     run = (let '(b', r) := @sample num B P model X max_predictions (Some t) b in
            (b', rbind r (continuation_text self X)))).
Proof.
  intros HX run. subst run. unfold generate, bind, of_result. rewrite HX.
  split; [by intros ->|]. split.
  - intros t -> Ht. simpl. unfold checked_sample.
    apply Qle_bool_iff in Ht. rewrite Ht. by split.
  - intros t -> Ht. simpl. unfold checked_sample.
    destruct (Qle_bool t 0) eqn:Hle.
    { apply Qle_bool_iff in Hle. by apply Qlt_not_le in Ht. }
    destruct (sample X max_predictions (Some t) b) as [b' [Y|e]]; [|reflexivity].
    unfold continuation_text, ret. simpl.
    by destruct (cat_axis1 X (drop_first_column Y)).
Qed.

Lemma generate_sample_temperature_witness :
  @generate Z nat nat (with_checked_sample demo_model) demo [chars (lit "ab")]
    3 "sample" (Some 0%Q) (Some 5%Z) (Some 5%Z) 0
    = (0, Raise ValueError) ∧
  @generate Z nat nat (with_checked_sample demo_model) demo [chars (lit "ab")]
    3 "sample" (Some (1 # 2)%Q) (Some 5%Z) (Some 5%Z) 0
    = (1, Ok [lit "abaaa"]).
Proof.
  split.
  - apply (generate_sample_temperature demo_model demo [chars (lit "ab")] 3
             (Some 0%Q) (Some 5%Z) (Some 5%Z) 0 [[1; 2]]%Z eq_refl) with (t := 0%Q);
      [reflexivity|]. vm_compute. discriminate.
  - apply (generate_sample_temperature demo_model demo [chars (lit "ab")] 3
             (Some (1 # 2)%Q) (Some 5%Z) (Some 5%Z) 0 [[1; 2]]%Z eq_refl)
        with (t := (1 # 2)%Q); reflexivity.
Defined.

(** C6 as stated fails for the temperature [None]: sampling is selected,
    [None] is no positive number, and the failure is the [AssertionError]
    of [generate], not an [InvalidArgument]. *)
Lemma generate_sample_without_temperature :
  @generate Z nat nat (with_checked_sample demo_model) demo [chars (lit "ab")]
    3 "sample" None (Some 5%Z) (Some 5%Z) 0
    = (0, Raise AssertionError) ∧
  is_InvalidArgument AssertionError = false.
Proof. split; vm_compute; reflexivity. Qed.

(** ** Claims about the training loop *)

Section FitProperties.
Context {num B P D : Type} `{!Numeric num, !Seq2Seq num B P, !Torch B D}.

Abbreviation World := (world num B P).

Lemma keeps_disk_ret {A} (a : A) : keeps_disk (ret a : M World A).
Proof. by intros w. Qed.

Lemma keeps_disk_of_result {A} (r : result A) :
  keeps_disk (of_result r : M World A).
Proof. by intros w. Qed.

Lemma keeps_disk_on_backend {A} (m : M B A) :
  keeps_disk (on_backend m : M World A).
Proof. intros w. unfold on_backend. by destruct (m (backend w)). Qed.

Lemma keeps_disk_print l : keeps_disk (print l : M World unit).
Proof. by intros w. Qed.

Lemma keeps_disk_bind {A A'} (m : M World A) (k : A → M World A') :
  keeps_disk m → (∀ a, keeps_disk (k a)) → keeps_disk (bind m k).
Proof.
  intros Hm Hk w. unfold bind. specialize (Hm w).
  destruct (m w) as [w1 [a|e]]; simpl in *; [|done].
  by rewrite Hk.
Qed.

Lemma keeps_disk_mapM_ {A A'} (body : A → M World A') l :
  (∀ a, keeps_disk (body a)) → keeps_disk (mapM_ body l).
Proof.
  intros Hbody. induction l as [|a l IH]; simpl; [apply keeps_disk_ret|].
  apply keeps_disk_bind; [done|]. intros a'.
  apply keeps_disk_bind; [done|]. intros l'. apply keeps_disk_ret.
Qed.

Lemma keeps_disk_for_each {A} (body : A → M World unit) l :
  (∀ a, keeps_disk (body a)) → keeps_disk (for_each l body).
Proof.
  intros Hbody. induction l as [|a l IH]; simpl; [apply keeps_disk_ret|].
  by apply keeps_disk_bind.
Qed.

Create HintDb disk.

#[local] Hint Resolve keeps_disk_ret keeps_disk_of_result keeps_disk_on_backend
  keeps_disk_print : disk.

#[local] Ltac keeps :=
  repeat first
    [ progress eauto with disk
    | apply keeps_disk_bind; [|intros ?]
    | apply keeps_disk_mapM_; intros ?
    | apply keeps_disk_for_each; intros ? ].

Lemma keeps_disk_train_batch xy : keeps_disk (train_batch xy).
Proof. destruct xy as [x y]. unfold train_batch. keeps. Qed.

#[local] Hint Resolve keeps_disk_train_batch : disk.

Lemma keeps_disk_diagnostics self X Y : keeps_disk (diagnostics self X Y).
Proof. unfold diagnostics, set_mode. keeps. Qed.

#[local] Hint Resolve keeps_disk_diagnostics : disk.

Lemma keeps_disk_epoch self X Y verbose data_loader e :
  keeps_disk (epoch self X Y verbose data_loader e).
Proof.
  unfold epoch. keeps. case_bool_decide; keeps.
Qed.

#[local] Hint Resolve keeps_disk_epoch : disk.

(** C1.  For a mini-batch [(x, y)] of [fit] whose [forward(x, y)] has the
    shape (batch, time, vocabulary) of [y] and whose true symbols are
    classes of the prediction, the loss
    [criterion(predictions[:, :, :-1], y[:, 1:])] is the mean over exactly
    these terms: for every example and every position [t] that has a true
    symbol at [t + 1] other than the padding index 0, the cross-entropy of
    the prediction at [t] against the true symbol at [t + 1].  So the last
    predicted position has no term, the first true symbol is no target,
    and a position whose true symbol is 0 contributes nothing.  This loss
    is what the body of the loop over the mini-batches appends to
    [losses], once the optimizer has made its step. *)
Theorem fit_loss_shifted_and_masked x y (w : World) b1 forward_x_y :
  forward x y (backend w) = (b1, Ok forward_x_y) →
  forward_shape forward_x_y y →
  targets_in_range forward_x_y y →
  fit_loss forward_x_y y
    = Ok (mean_reduction (shifted_masked_terms forward_x_y y)) ∧
  train_batch (x, y) w
    = (on_backend zero_grad ;;; on_backend (backward x y) ;;; on_backend step ;;;
       ret (mean_reduction (shifted_masked_terms forward_x_y y)))
        {| backend := b1; stdout := stdout w; disk := disk w |}.
Proof.
  intros Hforward Hshape Hrange.
  assert (fit_loss forward_x_y y
            = Ok (mean_reduction (shifted_masked_terms forward_x_y y))) as Hloss.
  { unfold fit_loss. by apply criterion_shifted_and_masked. }
  split; [exact Hloss|].
  unfold train_batch. unfold bind at 1. unfold on_backend at 1.
  rewrite Hforward. unfold bind at 1. unfold of_result. by rewrite Hloss.
Qed.

(** Every loss that a mini-batch appends to [losses] is that shifted,
    masked mean. *)
Lemma train_batch_loss x y w b1 forward_x_y w' loss :
  forward x y (backend w) = (b1, Ok forward_x_y) →
  forward_shape forward_x_y y →
  train_batch (x, y) w = (w', Ok loss) →
  loss = mean_reduction (shifted_masked_terms forward_x_y y).
Proof.
  intros Hforward Hshape. unfold train_batch, bind, on_backend at 1.
  rewrite Hforward. unfold of_result, fit_loss.
  rewrite (criterion_cases _ _ Hshape).
  destruct (decide _); [|discriminate].
  repeat match goal with
         | |- context [on_backend ?m ?w] =>
             destruct (on_backend m w) as [? [[]|?]]; [|discriminate]
         end.
  unfold ret. congruence.
Qed.

Lemma keeps_disk_training self X Y epochs batch_size lr verbose :
  keeps_disk (training self X Y epochs batch_size lr verbose).
Proof. unfold training. keeps. Qed.

Lemma fit_training self X Y epochs batch_size lr verbose save_path w :
  fit self X Y epochs batch_size lr verbose save_path w =
    match training self X Y epochs batch_size lr verbose w with
    | (w1, Ok _) =>
        match save_path with
        | Some path => torch_save path w1
        | None => (w1, Ok tt)
        end
    | (w1, Raise e) => (w1, Raise e)
    end.
Proof.
  unfold fit, training, bind.
  destruct (on_backend (Adam lr) w) as [w0 [[]|e]]; [|reflexivity].
  destruct (of_result (DataLoader X Y batch_size) w0) as [w1 [dl|e]]; [|reflexivity].
  destruct (for_each _ _ w1) as [w2 [[]|e]]; [|reflexivity].
  by destruct save_path.
Qed.

Lemma for_each_app {A} (body : A → M World unit) l1 l2 w :
  for_each (l1 ++ l2) body w =
    match for_each l1 body w with
    | (w1, Ok _) => for_each l2 body w1
    | (w1, Raise e) => (w1, Raise e)
    end.
Proof.
  revert w. induction l1 as [|a l1 IH]; intros w; [reflexivity|].
  simpl. unfold bind. destruct (body a w) as [w1 [[]|e]]; [apply IH|reflexivity].
Qed.

(** C8.  [fit] writes to the durable storage at most once, behind the
    loop over the epochs.  Without a [save_path] nothing is written.
    When [fit] raises (the set-up, a mini-batch, the report of an epoch
    or its diagnostics failed) nothing is written either.  When [fit]
    returns and a [save_path] was given, the storage differs from the
    initial one by that path alone, which holds the parameters of the
    model as the last epoch left them.  And an epoch that raises, after
    any number of epochs that went through, makes [fit] raise the same
    exception there and then. *)
Theorem fit_saves_after_training self X Y epochs batch_size lr verbose save_path w :
  (let '(w', r) := fit self X Y epochs batch_size lr verbose save_path w in
   (save_path = None → disk w' = disk w) ∧
   (∀ e, r = Raise e → disk w' = disk w) ∧
   (∀ path, r = Ok tt → save_path = Some path →
      disk w' = <[path := state_dict (backend w')]> (disk w))) ∧
  (∀ b0 data_loader finished e rest w1 w2 ex,
     Adam lr (backend w) = (b0, Ok tt) →
     DataLoader X Y batch_size = Ok data_loader →
     py_range 1 (epochs + 1) = finished ++ e :: rest →
     for_each finished (epoch self X Y verbose data_loader)
       {| backend := b0; stdout := stdout w; disk := disk w |} = (w1, Ok tt) →
     epoch self X Y verbose data_loader e w1 = (w2, Raise ex) →
     fit self X Y epochs batch_size lr verbose save_path w = (w2, Raise ex) ∧
     disk w2 = disk w).
Proof.
  rewrite fit_training.
  pose proof (keeps_disk_training self X Y epochs batch_size lr verbose w) as Hdisk.
  split.
  - destruct (training self X Y epochs batch_size lr verbose w) as [w1 [[]|e]];
      simpl in Hdisk.
    + destruct save_path as [path|]; simpl.
      * repeat split; [done|done|]. intros path' _ [= <-]. by rewrite Hdisk.
      * repeat split; [done|done|done].
    + repeat split; [done|done|done].
  - intros b0 dl finished e rest w1 w2 ex HAdam Hdl Hrange Hfinished Hepoch.
    assert (training self X Y epochs batch_size lr verbose w = (w2, Raise ex)) as Htr.
    { unfold training, bind, on_backend, of_result. rewrite HAdam, Hdl, Hrange.
      rewrite for_each_app, Hfinished. simpl. unfold bind. by rewrite Hepoch. }
    rewrite Htr in *. split; [reflexivity|exact Hdisk].
Qed.

(** The division the loss report makes: an epoch whose loader yields no
    mini-batch raises [ZeroDivisionError] and reports nothing. *)
Lemma epoch_without_batches self X Y verbose data_loader e (w : World) b :
  iter data_loader (backend w) = (b, Ok []) →
  epoch self X Y verbose data_loader e w
    = ({| backend := b; stdout := stdout w; disk := disk w |},
       Raise ZeroDivisionError).
Proof.
  intros Hiter. unfold epoch, bind, on_backend. by rewrite Hiter.
Qed.

(** C9 (as amended).  A call of [fit] on the empty dataset raises,
    whatever the number of epochs, and reports and saves nothing.  Once
    the optimizer is built, the exception is the [ValueError] of the
    construction of the loader, whose shuffling sampler refuses a dataset
    without examples: no epoch is started, and the backend is left as
    the construction of the optimizer left it. *)
Theorem fit_empty_dataset_raises self epochs batch_size lr verbose save_path (w : World) :
  ∃ w' e,
    fit self [] [] epochs batch_size lr verbose save_path w = (w', Raise e) ∧
    stdout w' = stdout w ∧ disk w' = disk w ∧
    (∀ b, Adam lr (backend w) = (b, Ok tt) → e = ValueError ∧ backend w' = b).
Proof.
  unfold fit, bind, on_backend, of_result.
  destruct (Adam lr (backend w)) as [b0 [[]|e0]] eqn:HAdam.
  - eexists _, ValueError. split; [reflexivity|]. simpl.
    repeat split; congruence.
  - eexists _, e0. split; [reflexivity|]. simpl. repeat split; congruence.
Qed.

End FitProperties.

Lemma fit_loss_shifted_and_masked_witness :
  train_batch ([[1; 2; 0; 0]], [[2; 5; 0; 0]])%Z demo_world
    = ({| backend := 2; stdout := []; disk := ∅ |},
       Ok (mean_reduction [nll demo_logits 5%Z])).
Proof.
  destruct (fit_loss_shifted_and_masked [[1; 2; 0; 0]]%Z [[2; 5; 0; 0]]%Z demo_world 1
              [[demo_logits; demo_logits; demo_logits; demo_logits]])
    as [_ Hrun].
  - reflexivity.
  - repeat constructor. exists 12. repeat constructor.
  - apply (bool_decide_unpack _). vm_compute. exact I.
  - etrans; [exact Hrun|]. reflexivity.
Defined.

Lemma fit_saves_after_training_witness :
  ∃ w', fit demo [[1; 2]]%Z [[5; 1; 2; 3]]%Z 2 100 (1 # 10000)%Q 1
            (Some (lit "model.pt")) demo_world = (w', Ok tt) ∧
        disk w' = <[lit "model.pt" := state_dict (backend w')]> ∅.
Proof.
  pose proof (fit_saves_after_training demo [[1; 2]]%Z [[5; 1; 2; 3]]%Z 2 100
                (1 # 10000)%Q 1 (Some (lit "model.pt")) demo_world) as Hfit.
  destruct (fit demo [[1; 2]]%Z [[5; 1; 2; 3]]%Z 2 100 (1 # 10000)%Q 1
              (Some (lit "model.pt")) demo_world) as [w' r] eqn:Hrun.
  assert (r = Ok tt) as -> by (vm_compute in Hrun; congruence).
  exists w'. split; [reflexivity|].
  destruct Hfit as [(_ & _ & Hsaved) _]. by apply Hsaved.
Defined.

(** C9 as stated fails in its account of the failure.  On the empty
    dataset, with three epochs asked for, [fit] raises the [ValueError]
    of the construction of the loader; the loss report of the first
    epoch, whose division by the number of mini-batches the claim names,
    is not reached. *)
Lemma fit_empty_dataset_no_division :
  fit demo [] [] 3 100 (1 # 10000)%Q 1 (Some (lit "model.pt")) demo_world
    = (demo_world, Raise ValueError) ∧
  ValueError ≠ ZeroDivisionError.
Proof. split; [vm_compute; reflexivity|discriminate]. Qed.

(** * Further properties of the code *)

(** ** The detokenizer *)

Lemma re_sub_end_absent end_ s : find end_ s = None → re_sub_end end_ s = s.
Proof.
  induction s as [|c s IH]; simpl; [by simp re_sub_end|].
  case_bool_decide as Hp; [discriminate|].
  destruct (find end_ s); [discriminate|]. intros _.
  rewrite re_sub_end_cons, bool_decide_eq_false_2 by done. by rewrite IH.
Qed.

Lemma split_lines_cons_line s : ∃ line lines, split_lines s = line :: lines.
Proof.
  induction s as [|c s (line & lines & IH)]; simpl; [eauto|].
  destruct (is_newline c); [eauto|]. rewrite IH. eauto.
Qed.

Lemma split_lines_single s : newline ∉ s → split_lines s = [s].
Proof.
  induction s as [|c s IH]; intros Hn; simpl; [reflexivity|].
  unfold is_newline. rewrite bool_decide_eq_false_2.
  - rewrite IH; [reflexivity|]. intros Hin. apply Hn. by apply list_elem_of_further.
  - intros ->. apply Hn. apply list_elem_of_here.
Qed.

Lemma split_lines_app line rest :
  newline ∉ line →
  split_lines (line ++ newline :: rest) = line :: split_lines rest.
Proof.
  induction line as [|c line IH]; intros Hn; simpl; [reflexivity|].
  unfold is_newline. rewrite bool_decide_eq_false_2.
  - rewrite IH; [reflexivity|]. intros Hin. apply Hn. by apply list_elem_of_further.
  - intros ->. apply Hn. apply list_elem_of_here.
Qed.

(** A text is its first line alone, or its first line, a line feed and
    the rest. *)
Lemma first_line s :
  newline ∉ s ∨
  ∃ line rest, s = line ++ newline :: rest ∧ newline ∉ line.
Proof.
  induction s as [|c s IH]; [left; by intros ?%elem_of_nil|].
  destruct (decide (c = newline)) as [->|Hc].
  - right. exists [], s. split; [reflexivity|]. by intros ?%elem_of_nil.
  - destruct IH as [Hn|(line & rest & -> & Hn)].
    + left. intros [?|?]%elem_of_cons; congruence.
    + right. exists (c :: line), rest. split; [reflexivity|].
      intros [?|?]%elem_of_cons; congruence.
Qed.

Lemma prefix_of_first_line (end_ line rest : str) :
  newline ∉ end_ →
  end_ `prefix_of` line ++ newline :: rest ↔ end_ `prefix_of` line.
Proof.
  intros Hend. split.
  - intros [k Hk]. revert line Hk. induction end_ as [|e end_ IH]; intros line Hk.
    + apply prefix_nil.
    + destruct line as [|c line]; simpl in Hk.
      * injection Hk as <- _. destruct Hend. apply list_elem_of_here.
      * injection Hk as -> Hk. apply prefix_cons, IH; [|done].
        intros Hin. apply Hend. by apply list_elem_of_further.
  - intros [k ->]. exists (k ++ newline :: rest). by rewrite <- app_assoc.
Qed.

Lemma re_sub_end_at_line_feed end_ rest :
  newline ∉ end_ →
  re_sub_end end_ (newline :: rest) = newline :: re_sub_end end_ rest.
Proof.
  intros Hend. rewrite re_sub_end_cons.
  destruct end_ as [|e end_].
  - rewrite bool_decide_eq_true_2 by apply prefix_nil.
    rewrite decide_False; [reflexivity|]. unfold match_rest. simpl. lia.
  - rewrite bool_decide_eq_false_2; [reflexivity|].
    intros [k Hk]. injection Hk as <- _. apply Hend, list_elem_of_here.
Qed.

Lemma re_sub_end_first_line end_ line rest :
  newline ∉ end_ → newline ∉ line →
  re_sub_end end_ (line ++ newline :: rest)
    = truncate_at_end end_ line ++ newline :: re_sub_end end_ rest.
Proof.
  intros Hend. unfold truncate_at_end.
  induction line as [|c line IH]; intros Hline.
  - simpl app. rewrite re_sub_end_at_line_feed by done. simpl.
    case_bool_decide; [by rewrite take_nil|done].
  - change ((c :: line) ++ newline :: rest) with (c :: (line ++ newline :: rest)).
    rewrite re_sub_end_cons. simpl find.
    pose proof (prefix_of_first_line end_ (c :: line) rest Hend) as Hiff.
    simpl in Hiff. rewrite (bool_decide_ext _ _ Hiff). clear Hiff.
    case_bool_decide as Hp.
    + assert (match_rest end_ (c :: line ++ newline :: rest) = newline :: rest) as Hr.
      { unfold match_rest. destruct Hp as [k Hk].
        change (c :: line ++ newline :: rest) with ((c :: line) ++ newline :: rest).
        rewrite Hk, <- app_assoc, drop_app_length.
        assert (newline ∉ k) as Hnk.
        { intros Hin. apply Hline. rewrite Hk. apply elem_of_app. by right. }
        clear -Hnk. induction k as [|a k IH]; [reflexivity|].
        simpl. unfold is_newline. rewrite bool_decide_eq_false_2.
        - apply IH. intros Hin. apply Hnk. by apply list_elem_of_further.
        - intros ->. apply Hnk. apply list_elem_of_here. }
      rewrite Hr, decide_True by (simpl; rewrite length_app; simpl; lia).
      rewrite re_sub_end_at_line_feed by done.
      apply prefix_of_take in Hp. simpl. by rewrite Hp.
    + rewrite IH by (intros Hin; apply Hline; by apply list_elem_of_further).
      destruct (find end_ line); reflexivity.
Qed.

Lemma re_sub_end_lines end_ s :
  newline ∉ end_ →
  re_sub_end end_ s = join [newline] (truncate_at_end end_ <$> split_lines s).
Proof.
  intros Hend. remember (length s) as n eqn:Hn. revert s Hn.
  induction n as [n IH] using lt_wf_ind. intros s Hn.
  destruct (first_line s) as [Hs|(line & rest & -> & Hline)].
  - rewrite split_lines_single by done. simpl. by apply re_sub_end_truncates.
  - rewrite re_sub_end_first_line, split_lines_app by done.
    rewrite (IH (length rest)) with (s := rest);
      [|subst n; rewrite length_app; simpl; lia|reflexivity].
    destruct (split_lines_cons_line rest) as (l & ls & ->). reflexivity.
Qed.

Lemma tensor2text_row self X separator vocabulary end_ texts n l symbols :
  tensor2text self X separator vocabulary end_ = Ok texts →
  X !! n = Some l →
  rmap (getitem (default (out_vocabulary self) vocabulary)) l = Ok symbols →
  texts !! n = Some (re_sub end_ true (join separator symbols)).
Proof.
  unfold tensor2text. simpl. intros Htexts Hn Hsym.
  apply rmap_Ok_Forall2 in Htexts.
  destruct (Forall2_lookup_l _ _ _ _ _ Htexts Hn) as (t & Ht & Hrow).
  unfold row2text in Hrow. rewrite Hsym in Hrow. simpl in Hrow.
  injection Hrow as <-. exact Ht.
Qed.

Lemma row2text_Ok_inv vocabulary separator end_ l t :
  row2text vocabulary separator end_ l = Ok t →
  ∃ symbols, rmap (getitem vocabulary) l = Ok symbols ∧
             t = re_sub end_ true (join separator symbols).
Proof.
  unfold row2text. destruct (rmap (getitem vocabulary) l) as [symbols|e];
    simpl; [|discriminate].
  intros [= <-]. eauto.
Qed.

(** X1.  Every text that [tensor2text] returns is left as it is by a
    second end substitution: on each of its lines nothing follows the
    first end symbol. *)
Theorem tensor2text_output_fixed self X separator vocabulary end_ texts :
  regex_literal end_ = true →
  tensor2text self X separator vocabulary end_ = Ok texts →
  Forall (λ t, re_sub_end end_ t = t) texts.
Proof.
  intros Hlit Htexts. unfold tensor2text in Htexts. simpl in Htexts.
  apply rmap_Ok_Forall2 in Htexts.
  induction Htexts as [|l t X texts Hrow _ IH]; constructor; [|exact IH].
  apply row2text_Ok_inv in Hrow as (symbols & _ & ->).
  rewrite re_sub_literal by done. apply re_sub_end_idempotent.
Qed.

Lemma tensor2text_output_fixed_witness :
  Forall (λ t, re_sub_end default_end t = t)
         [lit "a<END>" ++ [newline] ++ lit "a<END>"; lit "ab"].
Proof.
  apply (tensor2text_output_fixed demo [[1; 3; 2; 4; 1; 3; 2]; [1; 2]]%Z
           default_separator None default_end).
  - reflexivity.
  - vm_compute. reflexivity.
Defined.

(** X2.  For an end symbol that is literal text for the [re] module, a
    row whose joined symbols do not hold the end symbol is returned as
    joined, line feeds included. *)
Theorem tensor2text_without_end_marker self X separator vocabulary end_ texts
    n l symbols :
  regex_literal end_ = true →
  tensor2text self X separator vocabulary end_ = Ok texts →
  X !! n = Some l →
  rmap (getitem (default (out_vocabulary self) vocabulary)) l = Ok symbols →
  find end_ (join separator symbols) = None →
  texts !! n = Some (join separator symbols).
Proof.
  intros Hlit Htexts Hn Hsym Hfind.
  rewrite <- (re_sub_end_absent end_ (join separator symbols) Hfind).
  rewrite <- (re_sub_literal end_ true) by done.
  by eapply tensor2text_row.
Qed.

Lemma tensor2text_without_end_marker_witness :
  [lit "a<END>"; lit "ab" ++ [newline] ++ lit "ba"] !! 1
    = Some (join default_separator [lit "a"; lit "b"; [newline]; lit "b"; lit "a"]).
Proof.
  apply (tensor2text_without_end_marker demo [[1; 3; 2; 0; 0]; [1; 2; 4; 2; 1]]%Z
           default_separator None default_end
           [lit "a<END>"; lit "ab" ++ [newline] ++ lit "ba"] 1 [1; 2; 4; 2; 1]%Z).
  - reflexivity.
  - vm_compute. reflexivity.
  - reflexivity.
  - vm_compute. reflexivity.
  - vm_compute. reflexivity.
Defined.

(** X3.  For an end symbol that is literal text for the [re] module and
    holds no line feed, [tensor2text] works line by line: the text it returns for a row is the joined symbols with
    every line cut behind the first end symbol of that line (a line
    without end symbol is kept), the line feeds staying in place. *)
Theorem tensor2text_line_by_line self X separator vocabulary end_ texts
    n l symbols :
  regex_literal end_ = true →
  newline ∉ end_ →
  tensor2text self X separator vocabulary end_ = Ok texts →
  X !! n = Some l →
  rmap (getitem (default (out_vocabulary self) vocabulary)) l = Ok symbols →
  texts !! n = Some (join [newline]
                       (truncate_at_end end_ <$> split_lines (join separator symbols))).
Proof.
  intros Hlit Hend Htexts Hn Hsym.
  rewrite <- (re_sub_end_lines end_ (join separator symbols) Hend).
  rewrite <- (re_sub_literal end_ true) by done.
  by eapply tensor2text_row.
Qed.

Lemma tensor2text_line_by_line_witness :
  [lit "a<END>" ++ [newline] ++ lit "a<END>"] !! 0
    = Some (join [newline]
              (truncate_at_end default_end
                 <$> split_lines (lit "a<END>b" ++ [newline] ++ lit "a<END>b"))).
Proof.
  apply (tensor2text_line_by_line demo [[1; 3; 2; 4; 1; 3; 2]]%Z
           default_separator None default_end
           [lit "a<END>" ++ [newline] ++ lit "a<END>"] 0 [1; 3; 2; 4; 1; 3; 2]%Z
           [lit "a"; lit "<END>"; lit "b"; [newline]; lit "a"; lit "<END>"; lit "b"]).
  - reflexivity.
  - vm_compute. intros Hin.
    repeat (apply elem_of_cons in Hin as [Hin|Hin]; [discriminate|]).
    by apply elem_of_nil in Hin.
  - vm_compute. reflexivity.
  - reflexivity.
  - vm_compute. reflexivity.
Defined.

(** X4.  For an end symbol that [re.sub] accepts as a pattern (here:
    one written with ordinary characters, [.], [^] and [$]),
    [tensor2text] raises [KeyError], and nothing else, exactly when some
    index of the batch is no key of the vocabulary in use; otherwise it
    returns one text per row. *)
Theorem tensor2text_KeyError self X separator vocabulary end_ :
  regex_supported end_ = true →
  ((∃ l i, l ∈ X ∧ i ∈ l ∧ default (out_vocabulary self) vocabulary !! i = None) →
   tensor2text self X separator vocabulary end_ = Raise KeyError) ∧
  ((∀ l i, l ∈ X → i ∈ l → is_Some (default (out_vocabulary self) vocabulary !! i)) →
   ∃ texts, tensor2text self X separator vocabulary end_ = Ok texts ∧
            length texts = length X).
Proof.
  intros _. unfold tensor2text. simpl.
  set (voc := default (out_vocabulary self) vocabulary).
  destruct (rmap_cases (row2text voc separator end_) X KeyError)
    as [(texts & Htexts & Hall)|(Hraise & l & Hl & Hfl)];
    [apply row2text_raises| |].
  - split.
    + intros (l & i & Hl & Hi & Hnone). exfalso.
      apply list_elem_of_lookup in Hl as [n Hn].
      destruct (Forall2_lookup_l _ _ _ _ _ Hall Hn) as (t & _ & Hrow).
      apply row2text_Ok_inv in Hrow as (symbols & Hsym & _).
      apply rmap_Ok_Forall2 in Hsym.
      apply list_elem_of_lookup in Hi as [j Hj].
      destruct (Forall2_lookup_l _ _ _ _ _ Hsym Hj) as (v & _ & Hv).
      apply getitem_Ok in Hv. congruence.
    + intros _. exists texts. split; [done|]. symmetry. eapply Forall2_length, Hall.
  - split; [done|]. intros Hkeys. exfalso.
    destruct (row2text_Ok voc separator end_ l) as (symbols & _ & Hok);
      [intros i Hi; by apply (Hkeys l)|congruence].
Qed.

Lemma tensor2text_KeyError_witness :
  tensor2text demo [[1; 2]; [1; 99]]%Z default_separator None default_end
    = Raise KeyError ∧
  ∃ texts, tensor2text demo [[1; 2]; [2; 0]]%Z default_separator None default_end
             = Ok texts ∧ length texts = 2.
Proof.
  split.
  - apply (tensor2text_KeyError demo [[1; 2]; [1; 99]]%Z); [reflexivity|].
    exists [1; 99]%Z, 99%Z.
    split; [apply list_elem_of_further, list_elem_of_here|].
    split; [apply list_elem_of_further, list_elem_of_here|reflexivity].
  - apply (tensor2text_KeyError demo [[1; 2]; [2; 0]]%Z); [reflexivity|].
    intros l i Hl Hi.
    repeat (apply elem_of_cons in Hl as [->|Hl]);
      [| |by apply elem_of_nil in Hl];
      repeat (apply elem_of_cons in Hi as [->|Hi]);
      try (by apply elem_of_nil in Hi); vm_compute; eauto.
Defined.

(** ** The tokenizer *)

(** What [text2tensor] returns, when it returns: the rows of indices,
    each filled with zeros up to the length of the longest string. *)
Lemma text2tensor_Ok_inv self strings (X : list (list Z)) :
  text2tensor self strings = Ok X →
  strings ≠ [] ∧
  ∃ rows : list (list Z),
    Forall2 (λ l row, Forall2 (λ c i, in_vocabulary self !! c = Some i) l row)
            strings rows ∧
    X = (λ row, row ++ replicate (max_list (length <$> strings) - length row) 0%Z)
          <$> rows.
Proof.
  unfold text2tensor.
  destruct (rmap (encode self) strings) as [rows|e] eqn:Hrows; simpl; [|discriminate].
  apply rmap_Ok_Forall2 in Hrows.
  assert (Forall2 (λ l row, Forall2 (λ c i, in_vocabulary self !! c = Some i) l row)
            strings rows) as Hall.
  { eapply Forall2_impl; [exact Hrows|]. intros l row. by apply encode_Ok. }
  assert (length <$> rows = length <$> strings) as Hlen.
  { clear -Hall. induction Hall as [|l row strings rows Hrow _ IH]; [done|].
    csimpl. f_equal; [|exact IH]. symmetry. eapply Forall2_length, Hrow. }
  destruct rows as [|row rows]; simpl; [discriminate|].
  intros [= <-]. split.
  - intros ->. by apply Forall2_nil_inv_l in Hall.
  - exists (row :: rows). split; [exact Hall|]. by rewrite <- Hlen.
Qed.

(** X5.  The tensor [text2tensor] returns is rectangular: one row per
    string, every row as long as the longest string. *)
Theorem text2tensor_rectangular self strings (X : list (list Z)) :
  text2tensor self strings = Ok X →
  length X = length strings ∧
  Forall (λ row, length row = max_list (length <$> strings)) X.
Proof.
  intros HX. apply text2tensor_Ok_inv in HX as (_ & rows & Hall & ->).
  split; [rewrite length_fmap; symmetry; eapply Forall2_length, Hall|].
  apply Forall_fmap, Forall_forall. intros row Hrow. simpl.
  apply list_elem_of_lookup in Hrow as [n Hn].
  destruct (Forall2_lookup_r _ _ _ _ _ Hall Hn) as (l & Hl & Hlrow).
  apply Forall2_length in Hlrow.
  assert (length l ≤ max_list (length <$> strings)) as Hle.
  { apply max_list_elem_of_le, list_elem_of_fmap_2.
    apply list_elem_of_lookup. eauto. }
  rewrite length_app, length_replicate. lia.
Qed.

Lemma text2tensor_rectangular_witness :
  length [[1; 2; 1]; [2; 0; 0]; [0; 0; 0]]%Z = 3 ∧
  Forall (λ row : list Z, length row = 3) [[1; 2; 1]; [2; 0; 0]; [0; 0; 0]]%Z.
Proof.
  apply (text2tensor_rectangular demo
           [chars (lit "aba"); chars (lit "b"); chars (lit "")]).
  vm_compute. reflexivity.
Defined.

Lemma text2tensor_returns self strings :
  (∀ l c, l ∈ strings → c ∈ l → is_Some (in_vocabulary self !! c)) →
  strings ≠ [] →
  ∃ X : list (list Z), text2tensor self strings = Ok X.
Proof.
  intros Hall Hne. unfold text2tensor.
  destruct (rmap_cases (encode self) strings KeyError (encode_raises self))
    as [(rows & -> & Hrows)|(_ & l & Hl & Hfl)].
  - simpl. destruct (pad_sequence_Ok rows) as (X & HX & _); [|eauto].
    intros ->. by apply Forall2_nil_inv_r in Hrows.
  - exfalso.
    destruct (rmap_cases (getitem (in_vocabulary self)) l KeyError) as
      [(ys & Hys & _)|(_ & c & Hc & Hfc)]; [apply getitem_raises| |].
    + unfold encode in Hfl. congruence.
    + destruct (Hall l c Hl Hc) as [v Hv]. apply getitem_Ok in Hv. congruence.
Qed.

(** X6.  Encoding a batch and decoding it again does not strip the
    padding.  Over vocabularies that are inverse to each other on the
    symbols of the batch, with [pad] the symbol of index 0, every text
    comes back as its symbols followed by one [pad] for every position it
    is shorter than the longest text, with the end substitution
    applied. *)
Theorem round_trip_batch self strings end_ pad :
  regex_literal end_ = true →
  strings ≠ [] →
  (∀ l c, l ∈ strings → c ∈ l →
     ∃ i, in_vocabulary self !! c = Some i ∧ out_vocabulary self !! i = Some c) →
  out_vocabulary self !! 0%Z = Some pad →
  rbind (text2tensor self strings)
        (λ X, tensor2text self X default_separator None end_)
    = Ok ((λ l, re_sub_end end_
                  (join default_separator
                     (l ++ replicate (max_list (length <$> strings) - length l) pad)))
            <$> strings).
Proof.
  intros Hlit Hne Hinv Hpad.
  destruct (text2tensor_returns self strings) as [X HX]; [|done|].
  { intros l c Hl Hc. destruct (Hinv l c Hl Hc) as (i & Hi & _). eauto. }
  rewrite HX. apply text2tensor_Ok_inv in HX as (_ & rows & Hall & ->). simpl.
  assert (Forall2 (λ l row, Forall2 (λ c i, out_vocabulary self !! i = Some c) l row)
            strings rows) as Hout.
  { apply Forall2_same_length_lookup. split; [eapply Forall2_length, Hall|].
    intros n l row Hl Hrow.
    pose proof (Forall2_lookup_lr _ _ _ _ _ _ Hall Hl Hrow) as Hin.
    apply Forall2_same_length_lookup. split; [eapply Forall2_length, Hin|].
    intros j c i Hc Hi.
    pose proof (Forall2_lookup_lr _ _ _ _ _ _ Hin Hc Hi) as Hci.
    destruct (Hinv l c) as (i' & Hi' & Ho);
      [apply list_elem_of_lookup; eauto..|]. congruence. }
  unfold tensor2text. simpl. apply rmap_Ok_Forall2.
  apply Forall2_fmap, Forall2_flip.
  eapply Forall2_impl; [exact Hout|].
  intros l row Hlrow. simpl. unfold row2text.
  rewrite (Forall2_length _ _ _ Hlrow).
  set (k := max_list (length <$> strings) - length row).
  assert (rmap (getitem (out_vocabulary self)) (row ++ replicate k 0%Z)
            = Ok (l ++ replicate k pad)) as ->;
    [|cbn [rbind]; by rewrite re_sub_literal].
  apply rmap_Ok_Forall2, Forall2_app.
  - apply Forall2_flip. eapply Forall2_impl; [exact Hlrow|].
    intros c i Hci. by apply getitem_Ok.
  - apply Forall2_replicate. by apply getitem_Ok.
Qed.

Lemma round_trip_batch_witness :
  rbind (text2tensor demo [chars (lit "ab"); chars (lit "a")])
        (λ X, tensor2text demo X default_separator None default_end)
    = Ok [lit "ab"; lit "a<PAD>"].
Proof.
  rewrite (round_trip_batch demo [chars (lit "ab"); chars (lit "a")]
             default_end (lit "<PAD>")).
  - vm_compute. reflexivity.
  - reflexivity.
  - done.
  - intros l c Hl Hc.
    repeat (apply elem_of_cons in Hl as [->|Hl]);
      [| |by apply elem_of_nil in Hl];
      repeat (apply elem_of_cons in Hc as [->|Hc]);
      try (by apply elem_of_nil in Hc); vm_compute; eauto.
  - reflexivity.
Defined.

(** ** The generation facade *)

Lemma continuation_text_length self (X Y : list (list Z)) texts :
  continuation_text self X Y = Ok texts → length texts = length X.
Proof.
  unfold continuation_text, cat_axis1.
  case_bool_decide as Hlen; simpl; [|discriminate].
  unfold tensor2text. simpl. intros Htexts.
  apply rmap_Ok_Forall2, Forall2_length in Htexts.
  rewrite <- Htexts, length_zip_with_l_eq; done.
Qed.

Section GenerateFurther.
Context {num B P : Type} `{!Seq2Seq num B P}.

(** X7.  Whatever the method, recognized or not, an input that does not
    tokenize makes [generate] fail with the error of [text2tensor], and
    no strategy is called: the backend state comes back untouched. *)
Theorem generate_tokenizer_error self input_text max_predictions method temperature
    candidates beam_width b e :
  text2tensor self input_text = Raise e →
  generate self input_text max_predictions method temperature candidates beam_width b
    = (b, Raise e).
Proof. intros HX. unfold generate, bind, of_result. by rewrite HX. Qed.

Lemma select_first_Ok (Y : list (list (list Z))) (Y0 : list (list Z)) :
  Forall2 (λ hypotheses h, hypotheses !! 0 = Some h) Y Y0 → select_first Y = Ok Y0.
Proof.
  intros Hall. unfold select_first. apply rmap_Ok_Forall2.
  eapply Forall2_impl; [exact Hall|]. by intros hyps h ->.
Qed.

Lemma select_first_IndexError (Y : list (list (list Z))) :
  [] ∈ Y → select_first Y = Raise IndexError.
Proof.
  intros Hin. unfold select_first.
  match goal with |- rmap ?f Y = _ =>
    destruct (rmap_cases f Y IndexError) as [(Y0 & _ & Hall)|[Hr _]] end.
  - intros hyps e. destruct (hyps !! 0); congruence.
  - apply list_elem_of_lookup in Hin as [n Hn].
    destruct (Forall2_lookup_l _ _ _ _ _ Hall Hn) as (h & _ & Hh). discriminate.
  - exact Hr.
Qed.

(** X8.  With the method [beam_search], [generate] uses the first
    hypothesis of every batch element and nothing else of what the search
    returns: the text is the detokenized input followed by that
    hypothesis without its first symbol.  When the search returns no
    hypothesis for some batch element, [generate] raises [IndexError]. *)
Theorem generate_beam_search_first_hypothesis self input_text max_predictions
    temperature c w b X b' (Y : list (list (list Z))) log_probabilities :
  text2tensor self input_text = Ok X →
  beam_search X max_predictions c w b = (b', Ok (Y, log_probabilities)) →
  (∀ Y0 : list (list Z),
     Forall2 (λ hypotheses h, hypotheses !! 0 = Some h) Y Y0 →
     generate self input_text max_predictions "beam_search" temperature
              (Some c) (Some w) b
       = (b', continuation_text self X Y0)) ∧
  ([] ∈ Y →
   generate self input_text max_predictions "beam_search" temperature
            (Some c) (Some w) b
     = (b', Raise IndexError)).
Proof.
  intros HX Hbeam.
  rewrite (generate_beam_search _ _ _ _ _ _ _ _ _ _ _ HX Hbeam).
  split.
  - intros Y0 HY0. by rewrite (select_first_Ok Y Y0 HY0).
  - intros Hin. by rewrite (select_first_IndexError Y Hin).
Qed.

(** X9.  Whenever [generate] returns, whatever the method and the
    model, it returns one text per input string. *)
Theorem generate_one_text_per_string self input_text max_predictions method
    temperature candidates beam_width b b' texts :
  generate self input_text max_predictions method temperature candidates beam_width b
    = (b', Ok texts) →
  length texts = length input_text.
Proof.
  unfold generate, bind, of_result.
  destruct (text2tensor self input_text) as [X|e] eqn:HX; [|discriminate].
  apply text2tensor_Ok_inv in HX as (_ & rows & Hall & HX).
  assert (length X = length input_text) as <-.
  { rewrite HX, length_fmap. symmetry. eapply Forall2_length, Hall. }
  clear HX Hall rows.
  assert (∀ Y : list (list Z),
            match cat_axis1 X (drop_first_column Y) with
            | Ok XY => (b', tensor2text self XY default_separator None default_end)
            | Raise e => (b', Raise e)
            end = (b', Ok texts) → length texts = length X) as Hfinal.
  { intros Y HY. apply (continuation_text_length self X Y).
    unfold continuation_text.
    destruct (cat_axis1 X (drop_first_column Y)); simpl; congruence. }
  destruct (bool_decide (method = "greedy_search"%string)).
  { destruct (greedy_search X max_predictions b) as [b1 [[Y s]|e]];
      simpl; discriminate. }
  destruct (bool_decide (method = "sample"%string)).
  { destruct temperature as [t|]; simpl; [|discriminate].
    destruct (sample X max_predictions (Some t) b) as [b1 [Y|e]];
      simpl; [|discriminate].
    intros Hrun. apply (Hfinal Y).
    destruct (cat_axis1 X (drop_first_column Y)); simpl in *; congruence. }
  destruct (bool_decide (method = "beam_search"%string)); [|simpl; discriminate].
  destruct candidates as [c|]; simpl; [|discriminate].
  destruct beam_width as [w|]; simpl; [|discriminate].
  destruct (beam_search X max_predictions c w b) as [b1 [[Y lp]|e]];
    simpl; [|discriminate].
  destruct (select_first Y) as [Y0|e]; simpl; [|discriminate].
  intros Hrun. apply (Hfinal Y0).
  destruct (cat_axis1 X (drop_first_column Y0)); simpl in *; congruence.
Qed.

End GenerateFurther.

Lemma generate_tokenizer_error_witness :
  generate demo [chars (lit "az")] 3 "sample" (Some 1%Q) (Some 5%Z) (Some 5%Z) 0
    = (0, Raise KeyError).
Proof.
  apply (generate_tokenizer_error demo [chars (lit "az")] 3 "sample"
           (Some 1%Q) (Some 5%Z) (Some 5%Z) 0 KeyError).
  vm_compute. reflexivity.
Defined.

Lemma generate_beam_search_first_hypothesis_witness :
  generate demo [chars (lit "ab")] 3 "beam_search" (Some 1%Q) (Some 2%Z) (Some 5%Z) 0
    = (1, Ok [lit "abaaa"]) ∧
  generate demo [chars (lit "ab")] 3 "beam_search" (Some 1%Q) (Some 0%Z) (Some 5%Z) 0
    = (1, Raise IndexError).
Proof.
  split.
  - destruct (generate_beam_search_first_hypothesis demo [chars (lit "ab")] 3
                (Some 1%Q) 2 5 0 [[1; 2]]%Z 1
                [[demo_hypothesis 3; demo_hypothesis 3]] [[0; 0]]%Z) as [Hfirst _].
    + vm_compute. reflexivity.
    + reflexivity.
    + rewrite (Hfirst [demo_hypothesis 3]); [reflexivity|]. repeat constructor.
  - destruct (generate_beam_search_first_hypothesis demo [chars (lit "ab")] 3
                (Some 1%Q) 0 5 0 [[1; 2]]%Z 1 [[]] [[]]) as [_ Hnone].
    + vm_compute. reflexivity.
    + reflexivity.
    + apply Hnone, list_elem_of_here.
Defined.

Lemma generate_one_text_per_string_witness :
  length [lit "abaaa"; lit "a<PAD>aaa"] = length [chars (lit "ab"); chars (lit "a")].
Proof.
  apply (generate_one_text_per_string demo [chars (lit "ab"); chars (lit "a")] 3
           "sample" (Some 1%Q) (Some 5%Z) (Some 5%Z) 0 1).
  vm_compute. reflexivity.
Defined.

(** ** The loss of a mini-batch, further *)

Section CriterionFurther.
Context {num : Type} `{!Numeric num}.
Implicit Types (p : list (list num)) (y_n : list Z).
Implicit Types (forward_x_y : list (list (list num))) (y : Tensor2).

(** X10.  The loss of a mini-batch does not look at the first true symbol
    of a row, at the last predicted position, or at the prediction of a
    position whose next true symbol is the padding index 0: two
    mini-batches that agree on the true symbols behind the first and on
    the predictions in front of every non-padding true symbol have the
    same loss. *)
Theorem fit_loss_ignores forward_x_y forward_x_y' (y y' : list (list Z)) :
  forward_shape forward_x_y y →
  forward_shape forward_x_y' y' →
  length y' = length y →
  (∀ n p p' y_n y_n',
     forward_x_y !! n = Some p → forward_x_y' !! n = Some p' →
     y !! n = Some y_n → y' !! n = Some y_n' →
     length y_n' = length y_n ∧
     (∀ t, y_n' !! (t + 1) = y_n !! (t + 1)) ∧
     (∀ t k, y_n !! (t + 1) = Some k → k ≠ 0%Z → p' !! t = p !! t)) →
  fit_loss forward_x_y' y' = fit_loss forward_x_y y.
Proof.
  intros Hshape Hshape' Hlen Hagree. unfold fit_loss.
  rewrite !criterion_cases by done.
  pose proof (Forall2_length _ _ _ Hshape) as Hl.
  pose proof (Forall2_length _ _ _ Hshape') as Hl'.
  assert (targets_in_range forward_x_y' y' ↔ targets_in_range forward_x_y y) as Hiff.
  { rewrite !targets_in_range_lookup by done. split.
    - intros Hall n p y_n t logits k Hp Hy Hlg Hk Hk0.
      destruct (lookup_lt_is_Some_2 forward_x_y' n) as [p' Hp'].
      { apply lookup_lt_Some in Hp. lia. }
      destruct (lookup_lt_is_Some_2 y' n) as [y_n' Hy'].
      { apply lookup_lt_Some in Hp. lia. }
      destruct (Hagree n p p' y_n y_n' Hp Hp' Hy Hy') as (H1 & H2 & H3).
      apply (Hall n p' y_n' t logits k); try done.
      + by rewrite (H3 t k Hk Hk0).
      + by rewrite H2.
    - intros Hall n p' y_n' t logits k Hp' Hy' Hlg Hk Hk0.
      destruct (lookup_lt_is_Some_2 forward_x_y n) as [p Hp].
      { apply lookup_lt_Some in Hp'. lia. }
      destruct (lookup_lt_is_Some_2 y n) as [y_n Hy].
      { apply lookup_lt_Some in Hp'. lia. }
      destruct (Hagree n p p' y_n y_n' Hp Hp' Hy Hy') as (H1 & H2 & H3).
      rewrite H2 in Hk.
      apply (Hall n p y_n t logits k); try done.
      by rewrite <- (H3 t k Hk Hk0). }
  destruct (decide (targets_in_range forward_x_y y)) as [Hr|Hr].
  2:{ rewrite decide_False; [reflexivity|]. by rewrite Hiff. }
  rewrite decide_True by (by apply Hiff).
  do 2 f_equal. unfold shifted_masked_terms. f_equal.
  apply list_eq. intros n. rewrite !lookup_zip_with.
  destruct (forward_x_y !! n) as [p|] eqn:Hp; simpl.
  - destruct (lookup_lt_is_Some_2 forward_x_y' n) as [p' Hp'].
    { apply lookup_lt_Some in Hp. lia. }
    destruct (lookup_lt_is_Some_2 y n) as [y_n Hy].
    { apply lookup_lt_Some in Hp. lia. }
    destruct (lookup_lt_is_Some_2 y' n) as [y_n' Hy'].
    { apply lookup_lt_Some in Hp. lia. }
    rewrite Hp', Hy, Hy'. simpl. f_equal.
    destruct (Hagree n p p' y_n y_n' Hp Hp' Hy Hy') as (H1 & H2 & H3).
    by apply shifted_masked_terms_of_agree.
  - rewrite (lookup_ge_None_2 forward_x_y' n); [reflexivity|].
    apply lookup_ge_None in Hp. lia.
Qed.

Lemma example_terms_count (g : nat → Z → num) (target_n : list Z) :
  length (mjoin (imap (λ t k, if bool_decide (k = 0%Z) then [] else [g t k]) target_n))
    = length (filter (λ k, k ≠ 0%Z) target_n).
Proof.
  revert g. induction target_n as [|k l IH]; intros g; [reflexivity|].
  rewrite imap_cons. simpl mjoin. rewrite length_app, filter_cons.
  rewrite (imap_ext _ (λ t k, if bool_decide (k = 0%Z) then []
                              else [(g ∘ S) t k])) by done.
  rewrite (IH (g ∘ S)).
  case_bool_decide; subst.
  - by rewrite decide_False by (by intros []).
  - by rewrite decide_True by done.
Qed.

Lemma shifted_masked_terms_count forward_x_y y :
  forward_shape forward_x_y y →
  length (shifted_masked_terms forward_x_y y)
    = sum_list ((λ y_n, length (filter (λ k, k ≠ 0%Z) (drop 1 y_n))) <$> y).
Proof.
  unfold shifted_masked_terms.
  induction 1 as [|p y_n forward_x_y y [Hlen [C Hrect]] _ IH]; [reflexivity|].
  simpl. rewrite length_app, IH. f_equal.
  rewrite <- (example_terms_shifted p y_n C Hlen Hrect).
  apply example_terms_count.
Qed.

(** X11.  On a prediction that has the shape of [y]: when the true
    symbols are classes of the prediction, the loss of a mini-batch is
    the mean over as many terms as there are true symbols other than 0
    behind the first symbol of each row.  When all of them are padding,
    it is the mean over no term at all. *)
Theorem fit_loss_term_count forward_x_y y :
  forward_shape forward_x_y y →
  (targets_in_range forward_x_y y →
   ∃ terms,
     fit_loss forward_x_y y = Ok (mean_reduction terms) ∧
     length terms
       = sum_list ((λ y_n, length (filter (λ k, k ≠ 0%Z) (drop 1 y_n))) <$> y)) ∧
  (Forall (λ y_n, Forall (λ k, k = 0%Z) (drop 1 y_n)) y →
   fit_loss forward_x_y y = Ok (mean_reduction [])).
Proof.
  intros Hshape. unfold fit_loss.
  pose proof (shifted_masked_terms_count _ _ Hshape) as Hcount.
  split.
  { intros Hrange. rewrite criterion_shifted_and_masked by done. eauto. }
  intros Hpad. rewrite criterion_shifted_and_masked; [|done|].
  - do 2 f_equal. apply length_zero_iff_nil. rewrite Hcount.
    clear -Hpad. induction Hpad as [|y_n y Hy _ IH]; [reflexivity|].
    csimpl. rewrite IH.
    assert (filter (λ k, k ≠ 0%Z) (drop 1 y_n) = []) as ->; [|reflexivity].
    induction Hy as [|k l Hk _ IHl]; [reflexivity|].
    rewrite filter_cons, decide_False by (by intros ?). exact IHl.
  - apply targets_in_range_lookup; [eapply Forall2_length, Hshape|].
    intros n p y_n t logits k _ Hy _ Hk Hk0. exfalso. apply Hk0.
    pose proof (Forall_lookup_1 _ _ _ _ Hpad Hy) as Hy_n. simpl in Hy_n.
    apply (Forall_lookup_1 _ _ t k Hy_n).
    by rewrite lookup_drop, Nat.add_comm.
Qed.

End CriterionFurther.

Lemma fit_loss_ignores_witness :
  fit_loss [[[1; 2]; [9; 9]; [9; 9]; [9; 9]]]%Z [[1; 1; 0; 0]]%Z
    = fit_loss [[[1; 2]; [3; 4]; [5; 6]; [7; 8]]]%Z [[0; 1; 0; 0]]%Z.
Proof.
  apply (fit_loss_ignores [[[1; 2]; [3; 4]; [5; 6]; [7; 8]]]%Z
           [[[1; 2]; [9; 9]; [9; 9]; [9; 9]]]%Z [[0; 1; 0; 0]]%Z [[1; 1; 0; 0]]%Z).
  - repeat constructor. exists 2. repeat constructor.
  - repeat constructor. exists 2. repeat constructor.
  - reflexivity.
  - intros [|n] p p' y_n y_n' Hp Hp' Hy Hy'; simplify_eq/=.
    split; [reflexivity|]. split.
    + intros t. by rewrite !Nat.add_1_r.
    + intros t k Hk Hk0. rewrite Nat.add_1_r in Hk.
      destruct t as [|[|[|t]]]; simplify_eq/=; done.
Defined.

Lemma fit_loss_term_count_witness :
  (∃ terms, fit_loss [[[1; 2]; [3; 4]; [5; 6]]; [[1; 2]; [3; 4]; [5; 6]]]%Z
              [[1; 1; 0]; [1; 1; 1]]%Z = Ok (mean_reduction terms) ∧
            length terms = 3) ∧
  fit_loss [[[1; 2]; [3; 4]; [5; 6]]]%Z [[1; 0; 0]]%Z = Ok (mean_reduction []).
Proof.
  split.
  - apply (fit_loss_term_count [[[1; 2]; [3; 4]; [5; 6]]; [[1; 2]; [3; 4]; [5; 6]]]%Z
             [[1; 1; 0]; [1; 1; 1]]%Z).
    + repeat constructor; exists 2; repeat constructor.
    + apply (bool_decide_unpack _). vm_compute. exact I.
  - apply (fit_loss_term_count [[[1; 2]; [3; 4]; [5; 6]]]%Z [[1; 0; 0]]%Z).
    + repeat constructor. exists 2. repeat constructor.
    + repeat constructor.
Defined.

(** ** The training loop, further *)


Section FitFurther.
Context {num B P D : Type} `{!Numeric num, !Seq2Seq num B P, !Torch B D}.

Abbreviation World := (world num B P).


Lemma stdout_on_backend {A} (m : M B A) (w : World) :
  stdout (on_backend m w).1 = stdout w.
Proof. unfold on_backend. by destruct (m (backend w)). Qed.

Lemma stdout_train_batch xy (w : World) : stdout (train_batch xy w).1 = stdout w.
Proof.
  destruct xy as [x y]. unfold train_batch, bind, of_result, ret.
  pose proof (stdout_on_backend (forward x y) w) as H1.
  destruct (on_backend (forward x y) w) as [w1 [pred|e]]; simpl in *; [|done].
  destruct (fit_loss pred y) as [loss|e]; simpl; [|done].
  pose proof (stdout_on_backend zero_grad w1) as H2.
  destruct (on_backend zero_grad w1) as [w2 [[]|e]]; simpl in *; [|congruence].
  pose proof (stdout_on_backend (backward x y) w2) as H3.
  destruct (on_backend (backward x y) w2) as [w3 [[]|e]]; simpl in *; [|congruence].
  pose proof (stdout_on_backend step w3) as H4.
  destruct (on_backend step w3) as [w4 [[]|e]]; simpl in *; congruence.
Qed.

Lemma stdout_train_batches batches (w : World) :
  stdout (mapM_ train_batch batches w).1 = stdout w.
Proof.
  revert w. induction batches as [|xy batches IH]; intros w; [reflexivity|].
  simpl. unfold bind, ret.
  pose proof (stdout_train_batch xy w) as H1.
  destruct (train_batch xy w) as [w1 [loss|e]]; simpl in *; [|done].
  specialize (IH w1).
  destruct (mapM_ train_batch batches w1) as [w2 [losses|e]]; simpl in *; congruence.
Qed.

Lemma stdout_epoch_losses data_loader (w : World) :
  stdout (epoch_losses data_loader w).1 = stdout w.
Proof.
  unfold epoch_losses, bind.
  pose proof (stdout_on_backend (iter data_loader) w) as H1.
  destruct (on_backend (iter data_loader) w) as [w1 [batches|ex]];
    simpl in *; [|done].
  by rewrite stdout_train_batches.
Qed.

(** An epoch without diagnostics that goes through has collected at
    least one loss and printed one line, the quotient of the sum of the
    losses of its mini-batches by their number. *)
Lemma epoch_reports self X Y verbose data_loader e (w w' : World) :
  (verbose ≤ 2)%Z →
  epoch self X Y verbose data_loader e w = (w', Ok tt) →
  ∃ w1 losses,
    epoch_losses data_loader w = (w1, Ok losses) ∧ losses ≠ [] ∧
    w' = (print (EpochLoss e (fdiv (fsum losses) (length losses))) w1).1.
Proof.
  intros Hverbose. unfold epoch, epoch_losses, bind, of_result.
  destruct (on_backend (iter data_loader) w) as [w1 [batches|ex]];
    [|discriminate].
  destruct (mapM_ train_batch batches w1) as [w2 [losses|ex]]; [|discriminate].
  destruct losses as [|loss losses]; simpl; [discriminate|].
  rewrite bool_decide_eq_false_2 by lia. unfold ret.
  intros [= <-]. by exists w2, (loss :: losses).
Qed.

Lemma epochs_report self X Y verbose data_loader es (w w' : World) :
  (verbose ≤ 2)%Z →
  for_each es (epoch self X Y verbose data_loader) w = (w', Ok tt) →
  ∃ lines, epochs_reported data_loader es w lines w' ∧
           stdout w' = stdout w ++ lines.
Proof.
  intros Hverbose. revert w. induction es as [|e es IH]; intros w; simpl.
  - unfold ret. intros [= <-]. exists []. split; [constructor|].
    by rewrite app_nil_r.
  - unfold bind.
    destruct (epoch self X Y verbose data_loader e w) as [w1 [[]|ex]] eqn:He;
      [|discriminate].
    apply epoch_reports in He as (w2 & losses & Hlosses & Hne & ->); [|done].
    intros Hrest. apply IH in Hrest as (lines & Hlines & Hout).
    exists (EpochLoss e (fdiv (fsum losses) (length losses)) :: lines).
    split; [by econstructor|].
    rewrite Hout. simpl. rewrite <- app_assoc. f_equal.
    pose proof (stdout_epoch_losses data_loader w) as Hkeep.
    by rewrite Hlosses in Hkeep.
Qed.

(** X13.  A call of [fit] without diagnostics ([verbose] at most 2) that
    returns has built its optimizer and its loader and then written
    exactly one line per epoch, numbered from 1 to [epochs] in this
    order; the loss of a line is the sum of the losses that the
    mini-batches of that epoch returned, divided by their number, which
    is not zero. *)
Theorem fit_reports_every_epoch self X Y epochs batch_size lr verbose save_path
    (w w' : World) :
  (verbose ≤ 2)%Z →
  fit self X Y epochs batch_size lr verbose save_path w = (w', Ok tt) →
  ∃ b0 data_loader lines w1,
    Adam lr (backend w) = (b0, Ok tt) ∧
    DataLoader X Y batch_size = Ok data_loader ∧
    epochs_reported data_loader (py_range 1 (epochs + 1))
      {| backend := b0; stdout := stdout w; disk := disk w |} lines w1 ∧
    length lines = Z.to_nat epochs ∧
    stdout w' = stdout w ++ lines ∧
    backend w' = backend w1.
Proof.
  intros Hverbose. unfold fit, bind, of_result, on_backend at 1.
  destruct (Adam lr (backend w)) as [b0 [[]|ex]]; [|discriminate].
  destruct (DataLoader X Y batch_size) as [data_loader|ex]; [|discriminate].
  destruct (for_each _ _ _) as [w1 [[]|ex]] eqn:Hloop; [|discriminate].
  apply epochs_report in Hloop as (lines & Hlines & Hout); [|done].
  intros Hsave. exists b0, data_loader, lines, w1.
  split; [reflexivity|]. split; [reflexivity|]. split; [exact Hlines|].
  split.
  { clear -Hlines. unfold py_range in Hlines.
    replace (Z.to_nat epochs) with (length (py_range 1 (epochs + 1))).
    2:{ unfold py_range. rewrite length_fmap, length_seq. lia. }
    fold (py_range 1 (epochs + 1)) in Hlines.
    induction Hlines; simpl; congruence. }
  simpl in Hout.
  destruct save_path as [path|]; simpl in Hsave; injection Hsave as <-; done.
Qed.

End FitFurther.


Lemma fit_reports_every_epoch_witness :
  ∃ (data_loader : list (Tensor2 * Tensor2)) lines w1,
    DataLoader [[1; 2]]%Z [[5; 1; 2; 3]]%Z 100 = Ok data_loader ∧
    epochs_reported data_loader [1; 2]%Z demo_world lines w1 ∧
    length lines = 2 ∧
    [EpochLoss 1 1002%Z; EpochLoss 2 1002%Z] = lines.
Proof.
  destruct (fit_reports_every_epoch demo [[1; 2]]%Z [[5; 1; 2; 3]]%Z 2 100
              (1 # 10000)%Q 1 (Some (lit "model.pt")) demo_world
              {| backend := 4; stdout := [EpochLoss 1 1002%Z; EpochLoss 2 1002%Z];
                 disk := {[lit "model.pt" := 4]} |})
    as (b0 & data_loader & lines & w1 & HAdam & Hdl & Hlines & Hlen & Hout & _).
  - lia.
  - vm_compute. reflexivity.
  - injection HAdam as <-. by exists data_loader, lines, w1.
Defined.

Lemma mapM__ext {S A A'} (f g : A → M S A') l :
  (∀ a s, f a s = g a s) → ∀ s, mapM_ f l s = mapM_ g l s.
Proof.
  intros Hfg. induction l as [|a l IH]; intros s; [reflexivity|].
  simpl. unfold bind. rewrite Hfg.
  destruct (g a s) as [s1 [b|e]]; [|reflexivity]. by rewrite IH.
Qed.

Lemma for_each_ext {S A} (f g : A → M S unit) l :
  (∀ a s, f a s = g a s) → ∀ s, for_each l f s = for_each l g s.
Proof.
  intros Hfg. induction l as [|a l IH]; intros s; [reflexivity|].
  simpl. unfold bind. rewrite Hfg.
  destruct (g a s) as [s1 [[]|e]]; [|reflexivity]. by rewrite IH.
Qed.

(** X14.  Without diagnostics ([verbose] at most 2) [fit] calls none of
    the decoding strategies: two models with the same [forward] and the
    same [state_dict], whatever their [greedy_search], [sample],
    [beam_search] and mode switches, are trained, reported and saved
    alike. *)
Theorem fit_decodes_for_diagnostics_only {num B P D : Type}
    `{!Numeric num, !Torch B D} (model model' : Seq2Seq num B P)
    self X Y epochs batch_size lr verbose save_path (w : world num B P) :
  (verbose ≤ 2)%Z →
  @forward num B P model = @forward num B P model' →
  @state_dict num B P model = @state_dict num B P model' →
  @fit num B P D _ model _ self X Y epochs batch_size lr verbose save_path w
    = @fit num B P D _ model' _ self X Y epochs batch_size lr verbose save_path w.
Proof.
  intros Hverbose Hforward Hstate.
  assert (∀ xy s, @train_batch num B P D _ model _ xy s
                  = @train_batch num B P D _ model' _ xy s) as Hbatch.
  { intros [x y] s. unfold train_batch. by rewrite Hforward. }
  assert (∀ data_loader e s,
            @epoch num B P D _ model _ self X Y verbose data_loader e s
            = @epoch num B P D _ model' _ self X Y verbose data_loader e s) as Hepoch.
  { intros data_loader e s. unfold epoch, bind.
    destruct (on_backend (iter data_loader) s) as [s1 [batches|ex]]; [|reflexivity].
    rewrite (mapM__ext _ _ batches Hbatch).
    destruct (mapM_ _ batches s1) as [s2 [losses|ex]]; [|reflexivity].
    destruct (of_result (py_mean losses) s2) as [s3 [mean|ex]]; [|reflexivity].
    destruct (print (EpochLoss e mean) s3) as [s4 [[]|ex]]; [|reflexivity].
    by rewrite bool_decide_eq_false_2 by lia. }
  unfold fit, bind.
  destruct (on_backend (Adam lr) w) as [w0 [[]|ex]]; [|reflexivity].
  destruct (of_result (DataLoader X Y batch_size) w0) as [w1 [data_loader|ex]];
    [|reflexivity].
  rewrite (for_each_ext _ _ _ (Hepoch data_loader)).
  destruct (for_each _ _ w1) as [w2 [[]|ex]]; [|reflexivity].
  destruct save_path as [path|]; [|reflexivity].
  unfold torch_save. by rewrite Hstate.
Qed.

Lemma fit_decodes_for_diagnostics_only_witness :
  @fit Z nat nat _ _ demo_model _ demo [[1; 2]]%Z [[5; 1; 2; 3]]%Z 2 100
       (1 # 10000)%Q 2 None demo_world
    = @fit Z nat nat _ _ (with_checked_sample demo_model) _ demo [[1; 2]]%Z
        [[5; 1; 2; 3]]%Z 2 100 (1 # 10000)%Q 2 None demo_world.
Proof.
  apply (fit_decodes_for_diagnostics_only demo_model (with_checked_sample demo_model)).
  - lia.
  - reflexivity.
  - reflexivity.
Defined.
